(** * Waveform quality evaluation: [tools/eval_sine_quality.py]

    A shallow embedding of [eval_sine_quality] and of the shape gate of
    [main], together with the properties of the analysis report.

    Modelling conventions.
    - A numpy array is a [shape] and a flat row-major buffer; the array
      read from the data file has dtype int64, so every integer operation
      on its elements wraps modulo 2^64 ([wrap64]).
    - [data[:,1]] is a numpy *view*: it shares the buffer of [data].  The
      function is therefore written in store-passing style and returns the
      final contents of its argument next to the report it prints.
    - Python exceptions are the [Raise] results of a small error monad.
    - float64 values are idealised as real numbers: rounding and the order
      of summation are not modelled.  The operations that leave the finite
      range on finite input (division by zero, logarithm of a non-positive
      number) return the IEEE special values, as numpy does in its default
      error state (a RuntimeWarning, no exception). *)

From Stdlib Require Import ZArith List Reals Lra Lia ZifyNat Bool.
From stdpp Require Import base list sets strings.

(** ** Exceptions *)

Inductive exn := AssertionError | ValueError | IndexError.

Inductive result (A : Type) : Type :=
| Ok (a : A)
| Raise (e : exn).
Arguments Ok {A} a.
Arguments Raise {A} e.

#[export] Instance result_ret : MRet result := λ A a, Ok a.
#[export] Instance result_bind : MBind result := λ A B f m,
  match m with Ok a => f a | Raise e => Raise e end.

(** [assert c] *)
Definition assert (c : bool) : result unit :=
  if c then Ok tt else Raise AssertionError.

(** ** int64 arithmetic *)

Module Int64.
Local Open Scope Z_scope.

Definition min_int : Z := - 2 ^ 63.
Definition max_int : Z := 2 ^ 63 - 1.

Definition in_range (z : Z) : Prop := min_int <= z <= max_int.

(** two's-complement reduction of a mathematical integer *)
Definition wrap64 (z : Z) : Z := (z + 2 ^ 63) mod 2 ^ 64 - 2 ^ 63.

Definition add (a b : Z) : Z := wrap64 (a + b).
Definition sub (a b : Z) : Z := wrap64 (a - b).
End Int64.

(** ** Arrays, views and in-place arithmetic *)

Record ndarray := NdArray { shape : list nat; buf : list Z }.

(** A one-dimensional strided window on a buffer. *)
Record view := View { v_off : nat; v_stride : nat; v_len : nat }.

(** [data[:, j]] of an array of shape (n, 2) *)
Definition column (n j : nat) : view := View j 2 n.

(** [v[lo:hi]] for non-negative bounds: both are clamped to the length. *)
Definition slice (v : view) (lo hi : nat) : view :=
  let hi' := hi `min` v_len v in
  let lo' := lo `min` hi' in
  View (v_off v + lo' * v_stride v) (v_stride v) (hi' - lo').

(** [v[lo:]] *)
Definition slice_from (v : view) (lo : nat) : view := slice v lo (v_len v).

(** the elements seen through a view (what [numpy.copy] stores) *)
Definition view_read (b : list Z) (v : view) : list Z :=
  (λ i, b !!! (v_off v + i * v_stride v)) <$> seq 0 (v_len v).

(** numpy broadcasting of a one-dimensional right operand to length [len] *)
Definition broadcast_to (len : nat) (rhs : list Z) : result (list Z) :=
  if length rhs =? len then Ok rhs
  else match rhs with
       | [r] => Ok (replicate len r)
       | _ => Raise ValueError
       end.

Fixpoint isub_loop (b : list Z) (off stride : nat) (rhs : list Z) : list Z :=
  match rhs with
  | [] => b
  | r :: rhs' =>
      isub_loop (alter (λ c, Int64.sub c r) off b) (off + stride) stride rhs'
  end.

(** [v -= rhs]: writes through the view into the buffer it shares *)
Definition view_isub (b : list Z) (v : view) (rhs : list Z) : result (list Z) :=
  rhs' ← broadcast_to (v_len v) rhs;
  mret (isub_loop b (v_off v) (v_stride v) rhs').

(** [xs + ys] on two int64 vectors: a fresh array *)
Definition np_add (xs ys : list Z) : result (list Z) :=
  if length xs =? length ys then Ok (zip_with Int64.add xs ys)
  else match xs, ys with
       | [x], _ => Ok (Int64.add x <$> ys)
       | _, [y] => Ok ((λ x, Int64.add x y) <$> xs)
       | _, _ => Raise ValueError
       end.

(** [numpy.amin] and [numpy.amax]: a ValueError on an empty array *)
Definition np_amin (xs : list Z) : result Z :=
  match xs with
  | [] => Raise ValueError
  | x :: r => Ok (foldl Z.min x r)
  end.

Definition np_amax (xs : list Z) : result Z :=
  match xs with
  | [] => Raise ValueError
  | x :: r => Ok (foldl Z.max x r)
  end.

(** ** The structural identity checks (lines 46-72) *)

Record identity_checks := IdentityChecks {
  cos_tmin : Z; cos_tmax : Z;      (* cos(x) == sin(x+pi/2) + (tmin .. tmax) *)
  half_tmin : Z; half_tmax : Z;    (* sin(x) == - sin(x+pi) + (tmin .. tmax) *)
}.

(** Returns the private sine copy, the four extrema and the buffer of
    [data] as the in-place subtractions leave it. *)
Definition structural_checks (n : nat) (b : list Z)
  : result (list Z * identity_checks * list Z) :=
  let dsin := view_read b (column n 0) in
  let dcos := column n 1 in
  b1 ← view_isub b (slice dcos 0 (3 * n / 4)) (drop (n / 4) dsin);
  b2 ← view_isub b1 (slice_from dcos (3 * n / 4)) (take (n / 4) dsin);
  tmin ← np_amin (view_read b2 dcos);
  tmax ← np_amax (view_read b2 dcos);
  t ← np_add (take (n / 2) dsin) (drop (n / 2) dsin);
  tmin' ← np_amin t;
  tmax' ← np_amax t;
  mret (dsin, IdentityChecks tmin tmax tmin' tmax', b2).

(** the line printed for a check *)
Inductive identity_line := Exactly | Within (lo hi : Z).

Definition report_line (tmin tmax : Z) : identity_line :=
  if (tmin =? 0)%Z && (tmax =? 0)%Z then Exactly else Within tmin tmax.

(** ** float64 values *)

Inductive float64 := Finite (r : R) | PosInf | NegInf | NaN.

Section float_model.
Local Open Scope R_scope.

(** the infinity with the sign of [s]; [NaN] when [s] is zero *)
Definition inf_of_sign (s : R) : float64 :=
  if Rlt_dec 0 s then PosInf else if Rlt_dec s 0 then NegInf else NaN.

(** [a / b] on finite operands; the zeros that reach a division in
    [eval_sine_quality] are results of [sqrt] and [abs], hence +0 *)
Definition np_true_divide (a b : R) : float64 :=
  if Req_dec_T b 0 then inf_of_sign a else Finite (a / b).

Definition f64_mul (x y : float64) : float64 :=
  match x, y with
  | NaN, _ | _, NaN => NaN
  | Finite a, Finite b => Finite (a * b)
  | Finite a, PosInf | PosInf, Finite a => inf_of_sign a
  | Finite a, NegInf | NegInf, Finite a => inf_of_sign (- a)
  | PosInf, PosInf | NegInf, NegInf => PosInf
  | PosInf, NegInf | NegInf, PosInf => NegInf
  end.

Definition f64_sub (x y : float64) : float64 :=
  match x, y with
  | NaN, _ | _, NaN => NaN
  | Finite a, Finite b => Finite (a - b)
  | Finite _, PosInf => NegInf
  | Finite _, NegInf => PosInf
  | PosInf, PosInf | NegInf, NegInf => NaN
  | PosInf, _ => PosInf
  | NegInf, _ => NegInf
  end.

Definition f64_div (x y : float64) : float64 :=
  match x, y with
  | NaN, _ | _, NaN => NaN
  | Finite a, Finite b => np_true_divide a b
  | Finite _, _ => Finite 0
  | PosInf, Finite b => if Rlt_dec b 0 then NegInf else PosInf
  | NegInf, Finite b => if Rlt_dec b 0 then PosInf else NegInf
  | _, _ => NaN
  end.

(** [numpy.log10]: -inf at zero, nan below it *)
Definition np_log10 (x : float64) : float64 :=
  match x with
  | Finite r =>
      if Rlt_dec 0 r then Finite (Rlog 10 r)
      else if Req_dec_T r 0 then NegInf else NaN
  | PosInf => PosInf
  | NegInf | NaN => NaN
  end.

(** [numpy.arctan2 y x] *)
Definition np_arctan2 (y x : R) : R :=
  if Rlt_dec 0 x then atan (y / x)
  else if Rlt_dec x 0 then
    (if Rlt_dec y 0 then atan (y / x) - PI else atan (y / x) + PI)
  else if Rlt_dec 0 y then PI / 2
  else if Rlt_dec y 0 then - PI / 2
  else 0.

Definition np_arange (n : nat) : list R := INR <$> seq 0 n.

Definition np_sum (xs : list R) : R := foldr Rplus 0 xs.

Definition np_mean (xs : list R) : R := np_sum xs / INR (length xs).

(** [numpy.std]: sqrt (mean (abs (x - mean x) ** 2)), that is ddof = 0 *)
Definition np_std (xs : list R) : R :=
  let m := np_mean xs in
  sqrt (np_mean ((λ x, Rabs (x - m) ^ 2) <$> xs)).

Definition np_amax_f (xs : list R) : result R :=
  match xs with
  | [] => Raise ValueError
  | x :: r => Ok (foldl Rmax x r)
  end.

(** [numpy.fft.rfft] of a real vector of length n: bins 0 .. n/2 of
    sum_j x_j * exp (-2 pi i j k / n), as (real, imaginary) pairs *)
Definition rfft_bin (xs : list R) (k : nat) : R * R :=
  let n := length xs in
  let w := λ j : nat, 2 * PI * INR j * INR k / INR n in
  (np_sum (zip_with (λ x j, x * cos (w j)) xs (seq 0 n)),
   - np_sum (zip_with (λ x j, x * sin (w j)) xs (seq 0 n))).

Definition np_rfft (xs : list R) : list (R * R) :=
  rfft_bin xs <$> seq 0 (length xs / 2 + 1).

(** [numpy.abs] of a complex number *)
Definition np_abs_c (z : R * R) : R := sqrt (z.1 ^ 2 + z.2 ^ 2).

(** ** The spectral and error figures (lines 75-116) *)

Record report := Report {
  checks : identity_checks;
  offs : R;
  ampl : R;
  phase : R;
  peakerr : R;
  rmserr : R;
  sinad : float64;
  enob : float64;
  sfdr : float64;
}.

(** [2 * numpy.pi / n * numpy.arange(n)] *)
Definition phase_ramp (n : nat) : list R :=
  (λ x, 2 * PI / INR n * x) <$> np_arange n.

Definition figures (n : nat) (dsin : list Z) (chk : identity_checks)
  : result report :=
  let fsin := IZR <$> dsin in
  let offs := np_mean fsin in
  let tref := sin <$> phase_ramp n in
  let asin := np_sum (zip_with Rmult fsin tref) * 2 / INR n in
  let tref := cos <$> phase_ramp n in
  let acos := np_sum (zip_with Rmult fsin tref) * 2 / INR n in
  let ampl := sqrt (asin ^ 2 + acos ^ 2) in
  let phase := np_arctan2 acos asin in
  let tref := (λ x, ampl * x) <$> (sin <$> phase_ramp n) in
  let terr := zip_with Rminus fsin tref in
  peakerr ← np_amax_f (Rabs <$> terr);
  let rmserr := np_std terr in
  let sinad :=
    f64_mul (Finite 20) (np_log10 (np_true_divide (ampl * sqrt 0.5) rmserr)) in
  let enob := f64_div (f64_sub sinad (Finite 1.76)) (Finite 6.02) in
  let q := np_rfft fsin in
  q1 ← from_option Ok (Raise IndexError) (q !! 1%nat);
  let tampl := np_abs_c q1 in
  tspur ← np_amax_f (np_abs_c <$> drop 2 q);
  let sfdr := f64_mul (Finite 20) (np_log10 (np_true_divide tampl tspur)) in
  mret (Report chk offs ampl phase peakerr rmserr sinad enob sfdr).

End float_model.

(** ** [eval_sine_quality] *)

(** The result pairs the printed report with the contents of the argument
    array when the function returns. *)
Definition eval_sine_quality (data : ndarray) : result (report * ndarray) :=
  _ ← assert (length (shape data) =? 2);
  _ ← assert (shape data !!! 1 =? 2);
  let n := shape data !!! 0 in
  _ ← assert ((4 <=? n) && (n mod 4 =? 0));
  '(dsin, chk, b') ← structural_checks n (buf data);
  rep ← figures n dsin chk;
  mret (rep, NdArray (shape data) b').

(** ** The shape gate of [main] (lines 138-148) *)

Inductive outcome :=
| SysExit (code : Z) (msg : string)
| Finished (rep : report) (data' : ndarray)
| Uncaught (e : exn).

Definition bad_shape_msg : string := "ERROR: Expected array of shape (N, 2)".
Definition bad_length_msg : string := "ERROR: Expected power-of-two record length".

(** [data.shape[0] < 4 or (data.shape[0] & (data.shape[0] - 1)) != 0] *)
Definition bad_length (n : nat) : bool :=
  (n <? 4) || negb (Z.land (Z.of_nat n) (Z.of_nat n - 1) =? 0)%Z.

(** [main] from the point where [read_data] has returned [data] *)
Definition main (data : ndarray) : outcome :=
  if negb (length (shape data) =? 2) || negb (shape data !!! 1 =? 2)
  then SysExit 1 bad_shape_msg
  else if bad_length (shape data !!! 0)
  then SysExit 1 bad_length_msg
  else match eval_sine_quality data with
       | Ok (rep, data') => Finished rep data'
       | Raise e => Uncaught e
       end.

(** the exit taken when the record length is rejected: the ShapeError of the
    specification *)
Definition ShapeError : outcome := SysExit 1 bad_length_msg.

(** * Vocabulary of the properties *)

(** ** Sample sets *)

Definition sin_values (a : ndarray) (i : nat) : Z := buf a !!! (2 * i).
Definition cos_values (a : ndarray) (i : nat) : Z := buf a !!! (2 * i + 1).

(** an int64 array of shape (n, 2) *)
Definition wf_array (a : ndarray) (n : nat) : Prop :=
  shape a = [n; 2] ∧ length (buf a) = 2 * n ∧ Forall Int64.in_range (buf a).

(** the invariants of a WaveformSampleSet *)
Definition valid_sample_set (a : ndarray) (n : nat) : Prop :=
  wf_array a n ∧ 4 ≤ n ∧ ∃ k, n = 2 ^ k.

(** what the assertions of [eval_sine_quality] ask for *)
Definition analysable (a : ndarray) (n : nat) : Prop :=
  wf_array a n ∧ 4 ≤ n ∧ n mod 4 = 0.

(** ** Extrema over an index range *)

(** [m] is the least value of [f] on [0, n) *)
Definition is_min_over (n : nat) (f : nat → Z) (m : Z) : Prop :=
  (∀ i, i < n → (m ≤ f i)%Z) ∧ ∃ i, i < n ∧ f i = m.

(** [m] is the greatest value of [f] on [0, n) *)
Definition is_max_over (n : nat) (f : nat → Z) (m : Z) : Prop :=
  (∀ i, i < n → (f i ≤ m)%Z) ∧ ∃ i, i < n ∧ f i = m.

(** [m] is the greatest value of [f] on [lo, lo + len) *)
Definition is_Rmax_over (lo len : nat) (f : nat → R) (m : R) : Prop :=
  (∀ i, lo ≤ i < lo + len → (f i <= m)%R) ∧
  ∃ i, lo ≤ i < lo + len ∧ f i = m.

(** ** The structural identities *)

(** the sine index paired with cosine index [i]: forward by a quarter
    period on the first three quarters, wrapped on the last one *)
Definition shifted_index (n i : nat) : nat :=
  if i <? 3 * n / 4 then i + n / 4 else i - 3 * n / 4.

(** the steps of the in-place subtraction on the buffer of [data] *)
Definition dsin_of (n : nat) (b : list Z) : list Z := view_read b (column n 0).

Definition buf_after_first (n : nat) (b : list Z) : list Z :=
  isub_loop b 1 2 (drop (n / 4) (dsin_of n b)).

Definition buf_after (n : nat) (b : list Z) : list Z :=
  isub_loop (buf_after_first n b) (1 + 3 * n / 4 * 2) 2
    (take (n / 4) (dsin_of n b)).

(** the int64 difference that [dcos] holds after the two subtractions, and
    the int64 sum [t] *)
Definition quarter_diff (a : ndarray) (n i : nat) : Z :=
  Int64.sub (cos_values a i) (sin_values a (shifted_index n i)).

Definition half_sum (a : ndarray) (n i : nat) : Z :=
  Int64.add (sin_values a i) (sin_values a (i + n / 2)).

(** the same quantities over the integers *)
Definition quarter_exact (a : ndarray) (n i : nat) : Z :=
  (cos_values a i - sin_values a ((i + n / 4) mod n))%Z.

Definition half_exact (a : ndarray) (n i : nat) : Z :=
  (sin_values a i + sin_values a (i + n / 2))%Z.

(** ** The spectral and error figures *)

Section figures_vocabulary.
Local Open Scope R_scope.

(** sum of [f i] for i in [0, n) *)
Fixpoint Rsum (n : nat) (f : nat → R) : R :=
  match n with
  | O => 0
  | S k => Rsum k f + f k
  end.

(** theta_i = 2 pi i / N *)
Definition theta (n i : nat) : R := 2 * PI * INR i / INR n.

Definition fsin (a : ndarray) (i : nat) : R := IZR (sin_values a i).

Definition mean_of (n : nat) (f : nat → R) : R := Rsum n f / INR n.

Definition spec_offset (a : ndarray) (n : nat) : R := mean_of n (fsin a).

Definition spec_asin (a : ndarray) (n : nat) : R :=
  2 / INR n * Rsum n (λ i, fsin a i * sin (theta n i)).

Definition spec_acos (a : ndarray) (n : nat) : R :=
  2 / INR n * Rsum n (λ i, fsin a i * cos (theta n i)).

Definition spec_amplitude (a : ndarray) (n : nat) : R :=
  sqrt (spec_asin a n ^ 2 + spec_acos a n ^ 2).

Definition spec_phase (a : ndarray) (n : nat) : R :=
  np_arctan2 (spec_acos a n) (spec_asin a n).

(** error[i] = sin_values[i] - amplitude * sin (theta_i) *)
Definition spec_error (a : ndarray) (n : nat) (amplitude : R) (i : nat) : R :=
  fsin a i - amplitude * sin (theta n i).

(** population standard deviation of [e] on [0, n) *)
Definition population_std (n : nat) (e : nat → R) : R :=
  sqrt (mean_of n (λ i, (e i - mean_of n e) ^ 2)).

(** bin k of the discrete Fourier transform of the sine channel *)
Definition dft_bin (a : ndarray) (n k : nat) : R * R :=
  (Rsum n (λ j, fsin a j * cos (2 * PI * INR j * INR k / INR n)),
   - Rsum n (λ j, fsin a j * sin (2 * PI * INR j * INR k / INR n))).

Definition bin_magnitude (a : ndarray) (n k : nat) : R :=
  np_abs_c (dft_bin a n k).


(** the local variables of [figures] as functions of the sine column *)
Definition asin_of (n : nat) (fs : list R) : R :=
  np_sum (zip_with Rmult fs (sin <$> phase_ramp n)) * 2 / INR n.

Definition acos_of (n : nat) (fs : list R) : R :=
  np_sum (zip_with Rmult fs (cos <$> phase_ramp n)) * 2 / INR n.

Definition ampl_of (n : nat) (fs : list R) : R :=
  sqrt (asin_of n fs ^ 2 + acos_of n fs ^ 2).

Definition terr_of (n : nat) (fs : list R) : list R :=
  zip_with Rminus fs ((λ x, ampl_of n fs * x) <$> (sin <$> phase_ramp n)).

Definition decibels (x : float64) : float64 :=
  f64_mul (Finite 20) (np_log10 x).

Definition sinad_of (ampl rmserr : R) : float64 :=
  decibels (np_true_divide (ampl * sqrt 0.5) rmserr).

Definition enob_of (sinad : float64) : float64 :=
  f64_div (f64_sub sinad (Finite 1.76)) (Finite 6.02).

End figures_vocabulary.

(** ** Sample sets used in the examples *)

(** one exact period of a unit sine and cosine, N = 4 *)
Definition unit_period : ndarray :=
  NdArray [4; 2] [0; 1;  1; 0;  0; -1;  -1; 0]%Z.

(** four samples whose first cosine code is the least int64 *)
Definition extreme_cosine : ndarray :=
  NdArray [4; 2] [1; -9223372036854775808;  1; 0;  1; 0;  1; 0]%Z.

(** four samples with two sine codes of 2^62 half a period apart *)
Definition large_sine : ndarray :=
  NdArray [4; 2] [4611686018427387904; 0;  0; 0;  4611686018427387904; 0;  0; 0]%Z.

(** the all-zero record of length 4 *)
Definition silence : ndarray := NdArray [4; 2] [0; 0;  0; 0;  0; 0;  0; 0]%Z.

(** a single unit impulse in the sine channel *)
Definition impulse : ndarray := NdArray [4; 2] [1; 0;  0; 0;  0; 0;  0; 0]%Z.

(** a record of length 12: a multiple of four that is not a power of two *)
Definition twelve : ndarray := NdArray [12; 2] (replicate 24 0%Z).

(** ** What a report says about the sample set it was computed from *)

Definition describes (a : ndarray) (n : nat) (rep : report) : Prop :=
  is_min_over n (quarter_diff a n) (cos_tmin (checks rep)) ∧
  is_max_over n (quarter_diff a n) (cos_tmax (checks rep)) ∧
  is_min_over (n / 2) (half_sum a n) (half_tmin (checks rep)) ∧
  is_max_over (n / 2) (half_sum a n) (half_tmax (checks rep)) ∧
  offs rep = spec_offset a n ∧
  ampl rep = spec_amplitude a n ∧
  phase rep = spec_phase a n ∧
  is_Rmax_over 0 n (λ i, Rabs (spec_error a n (ampl rep) i)) (peakerr rep) ∧
  rmserr rep = population_std n (spec_error a n (ampl rep)) ∧
  sinad rep = sinad_of (ampl rep) (rmserr rep) ∧
  enob rep = enob_of (sinad rep) ∧
  ∃ tspur,
    is_Rmax_over 2 (n / 2 - 1) (bin_magnitude a n) tspur ∧
    sfdr rep = decibels (np_true_divide (bin_magnitude a n 1) tspur).

(** the argument array when [eval_sine_quality] returns *)
Definition data_after (a : ndarray) (n : nat) : ndarray :=
  NdArray (shape a) (buf_after n (buf a)).

(** [unit_period] after one call of [eval_sine_quality] *)
Definition unit_period_after : ndarray :=
  NdArray [4; 2] [0; 0;  1; 0;  0; 0;  -1; 0]%Z.

(** * Proof automation *)

(** [lia] with division and remainder by a constant *)
Ltac Zify.zify_post_hook ::= Z.to_euclidean_division_equations.

(** well-formedness and validity of a concrete sample set *)
Ltac solve_wf :=
  split; [reflexivity|split; [reflexivity|]];
  repeat first [apply List.Forall_nil | apply List.Forall_cons];
  unfold Int64.in_range, Int64.min_int, Int64.max_int; lia.

Ltac solve_valid k :=
  split; [solve_wf|split; [lia|exists k; reflexivity]].

(** an extremum over four or fewer indices, by enumeration *)
Ltac solve_over i0 :=
  split;
  [intros i Hi;
   do 4 (try (destruct i as [|i]; [vm_compute; congruence|])); lia
  |exists i0; split; [lia|vm_compute; reflexivity]].

(** * The file reader and the command line ([read_data], [main]) *)

(** ** Errors of [read_data] *)

Inductive read_error :=
| LineAssertionError              (* assert len(w) == 2 *)
| TwoColumnsValueError            (* raise ValueError("Expecting two columns in file") *)
| IntValueError (w : string)      (* int(w) on a malformed literal *)
| StoreIndexError                 (* data[n,j] with n outside the array *)
| StoreOverflowError (z : Z).     (* data[n,j] = z with z outside int64 *)

Inductive reading (A : Type) : Type :=
| Read (a : A)
| ReadError (e : read_error).
Arguments Read {A} a.
Arguments ReadError {A} e.

#[export] Instance reading_ret : MRet reading := λ A a, Read a.
#[export] Instance reading_bind : MBind reading := λ A B f m,
  match m with Read a => f a | ReadError e => ReadError e end.

Definition fits_int64 (z : Z) : bool :=
  (Int64.min_int <=? z)%Z && (z <=? Int64.max_int)%Z.

(** [numpy.zeros((rows, 2), dtype=numpy.int64)] *)
Definition np_zeros (rows : nat) : ndarray :=
  NdArray [rows; 2] (replicate (rows * 2) 0%Z).

(** [numpy.resize(a, (rows, 2))]: the new array is filled with repeated
    copies of the elements of [a], in order *)
Definition np_resize (a : ndarray) (rows : nat) : ndarray :=
  NdArray [rows; 2]
    (match buf a with
     | [] => replicate (rows * 2) 0%Z
     | _ => (λ i, buf a !!! (i mod length (buf a))) <$> seq 0 (rows * 2)
     end).

(** [data[i, j] = v] on an int64 array of two columns *)
Definition setitem (data : ndarray) (i j : nat) (v : Z) : reading ndarray :=
  if negb (i <? shape data !!! 0) then ReadError StoreIndexError
  else if negb (fits_int64 v) then ReadError (StoreOverflowError v)
  else Read (NdArray (shape data) (<[i * 2 + j := v]> (buf data))).

(** [data[:n, :]] *)
Definition first_rows (data : ndarray) (n : nat) : ndarray :=
  let n' := n `min` (shape data !!! 0) in
  NdArray [n'; 2] (take (n' * 2) (buf data)).

Section read_data_model.
(** [str.split()] and [int()], the two built-ins that look at the text *)
Variable str_split : string → list string.
Variable py_int : string → option Z.

Definition int_of (w : string) : reading Z :=
  match py_int w with
  | Some z => Read z
  | None => ReadError (IntValueError w)
  end.

(** the body of the loop over the lines of the file (lines 26-34) *)
Definition read_line (st : nat * ndarray) (s : string)
  : reading (nat * ndarray) :=
  let '(n, data) := st in
  let data :=
    if n =? shape data !!! 0 then np_resize data (2 * n) else data in
  let w := str_split s in
  _ ← (if length w =? 2 then Read tt else ReadError LineAssertionError);
  _ ← (if negb (length w =? 2) then ReadError TwoColumnsValueError
       else Read tt);
  v0 ← int_of (w !!! 0);
  data ← setitem data n 0 v0;
  v1 ← int_of (w !!! 1);
  data ← setitem data n 1 v1;
  mret (S n, data).

Fixpoint read_loop (st : nat * ndarray) (lines : list string)
  : reading (nat * ndarray) :=
  match lines with
  | [] => Read st
  | s :: rest => st' ← read_line st s; read_loop st' rest
  end.

(** [read_data] on the lines of the named file *)
Definition read_data (lines : list string) : reading ndarray :=
  '(n, data) ← read_loop (0, np_zeros 1024) lines;
  mret (first_rows data n).

(** ** The reader without its buffer *)

(** one field: a literal that [int] accepts and that fits the array *)
Definition parse_field (w : string) : reading Z :=
  v ← int_of w;
  if fits_int64 v then Read v else ReadError (StoreOverflowError v).

(** one line: exactly two such fields *)
Definition parse_line (s : string) : reading (Z * Z) :=
  let w := str_split s in
  if length w =? 2 then
    v0 ← parse_field (w !!! 0);
    v1 ← parse_field (w !!! 1);
    mret (v0, v1)
  else ReadError LineAssertionError.

Fixpoint parse_lines (lines : list string) : reading (list (Z * Z)) :=
  match lines with
  | [] => Read []
  | s :: rest =>
      row ← parse_line s; rows ← parse_lines rest; mret (row :: rows)
  end.

(** ** [main] from the command line *)

Inductive cli_outcome :=
| UsageExit                          (* sys.exit(1) after the usage text *)
| IOError                            (* open(fname) fails *)
| ReadFailed (e : read_error)
| Ran (o : outcome).

(** [argv] is [sys.argv]; [fs] gives the lines of the files that exist *)
Definition main_cli (argv : list string) (fs : string → option (list string))
  : cli_outcome :=
  if negb (length argv =? 2) then UsageExit
  else match fs (argv !!! 1) with
       | None => IOError
       | Some lines =>
           match read_data lines with
           | ReadError e => ReadFailed e
           | Read data => Ran (main data)
           end
       end.

End read_data_model.

(** the row-major contents of a list of rows *)
Definition flat_rows (rows : list (Z * Z)) : list Z :=
  mjoin ((λ r : Z * Z, [r.1; r.2]) <$> rows).

(** the array of shape (len rows, 2) holding [rows] *)
Definition table (rows : list (Z * Z)) : ndarray :=
  NdArray [length rows; 2] (flat_rows rows).

(** what the loop of [read_data] keeps true after [k] lines: the array has
    room for the rows read so far and holds them in its first [k] rows *)
Definition reader_inv (k : nat) (data : ndarray) (rows : list (Z * Z)) : Prop :=
  k = length rows ∧
  ∃ cap, shape data = [cap; 2] ∧ length (buf data) = cap * 2 ∧
         k ≤ cap ∧ 0 < cap ∧ take (k * 2) (buf data) = flat_rows rows.

(** every entry of every row is an int64 *)
Definition rows_fit (rows : list (Z * Z)) : Prop :=
  Forall (λ r : Z * Z, Int64.in_range r.1 ∧ Int64.in_range r.2) rows.

(** ** A tokenizer and a parser for the examples

    On lines of decimal integers separated by single spaces these agree
    with [str.split] and [int]; they are only used to run [read_data] on
    concrete files. *)

Fixpoint ascii_words (s : string) (cur : string) : list string :=
  match s with
  | EmptyString => if decide (cur = EmptyString) then [] else [cur]
  | String c r =>
      if Ascii.nat_of_ascii c =? 32 then
        (if decide (cur = EmptyString) then [] else [cur]) ++
        ascii_words r EmptyString
      else ascii_words r (cur +:+ String c EmptyString)
  end.

Definition ascii_split (s : string) : list string := ascii_words s EmptyString.

Fixpoint decimal_digits (s : string) (acc : Z) : option Z :=
  match s with
  | EmptyString => Some acc
  | String c r =>
      let d := Z.of_nat (Ascii.nat_of_ascii c) in
      if (48 <=? d)%Z && (d <=? 57)%Z
      then decimal_digits r (10 * acc + (d - 48))%Z
      else None
  end.

Definition decimal_int (s : string) : option Z :=
  match s with
  | EmptyString => None
  | String c r =>
      if Ascii.nat_of_ascii c =? 45 then
        (if decide (r = EmptyString) then None
         else Z.opp <$> decimal_digits r 0%Z)
      else decimal_digits s 0%Z
  end.

(** a file holding the unit period, and the same file with a blank line *)
Definition unit_period_file : list string :=
  ["0 1"; "1 0"; "0 -1"; "-1 0"]%string.

Definition broken_file : list string :=
  ["0 1"; "1 0"; ""; "-1 0"]%string.

(** * The serial test driver ([tools/test_sincos_serial.py]) *)

(** Bytes are integers in [0, 256).  The strings written to the port are
    byte strings ("AD" is the two bytes 65, 68).  The port is the
    environment of the program: [stream] holds the bytes the device will
    send and [arrivals] tells, for each read in turn, how many of them are
    there before the timeout. *)

Inductive serial_exn :=
| StructError                     (* struct.error: value out of range *)
| ShiftValueError.                (* ValueError: negative shift count *)

Inductive attempt (A : Type) : Type :=
| Done (a : A)
| Crash (e : serial_exn).
Arguments Done {A} a.
Arguments Crash {A} e.

#[export] Instance attempt_ret : MRet attempt := λ A a, Done a.
#[export] Instance attempt_bind : MBind attempt := λ A B f m,
  match m with Done a => f a | Crash e => Crash e end.

Definition is_byte (b : Z) : Prop := (0 ≤ b < 256)%Z.

(** [a << k] on Python integers *)
Definition py_shiftl (a k : Z) : attempt Z :=
  if (k <? 0)%Z then Crash ShiftValueError else Done (Z.shiftl a k).

(** [struct.pack], format codes B and I, little-endian *)
Definition pack_B (v : Z) : attempt (list Z) :=
  if (0 <=? v)%Z && (v <=? 255)%Z then Done [v] else Crash StructError.

Definition pack_I (v : Z) : attempt (list Z) :=
  if (0 <=? v)%Z && (v <? 2 ^ 32)%Z
  then Done [Z.land v 255; Z.land (Z.shiftr v 8) 255;
             Z.land (Z.shiftr v 16) 255; Z.land (Z.shiftr v 24) 255]
  else Crash StructError.

(** [struct.pack("<BBI", a, b, c)] *)
Definition pack_BBI (a b c : Z) : attempt (list Z) :=
  x ← pack_B a; y ← pack_B b; z ← pack_I c; mret (x ++ y ++ z).

(** the frame of [testPhase]: [struct.pack("<BBI", 0x41, 0x42 + coresel,
    phase)] *)
Definition command_frame (coresel phase : Z) : attempt (list Z) :=
  pack_BBI 65 (66 + coresel) phase.

(** format code i: four bytes, little-endian, two's complement *)
Definition unpack_i (b0 b1 b2 b3 : Z) : Z :=
  let u := (b0 + 256 * b1 + 65536 * b2 + 16777216 * b3)%Z in
  if (u <? 2 ^ 31)%Z then u else (u - 2 ^ 32)%Z.

(** [struct.unpack("<ii", reply)] *)
Definition unpack_ii (reply : list Z) : attempt (Z * Z) :=
  match reply with
  | [b0; b1; b2; b3; b4; b5; b6; b7] =>
      Done (unpack_i b0 b1 b2 b3, unpack_i b4 b5 b6 b7)
  | _ => Crash StructError
  end.





Section serial_floats.
Local Open Scope R_scope.





End serial_floats.



(** [range(n)] *)
Definition py_range (n : nat) : list Z := Z.of_nat <$> seq 0 n.



(** [phase = (phase + 123457) & ((1 << phasebits) - 1)] *)
Definition next_phase (phasebits phase : Z) : attempt Z :=
  m ← py_shiftl 1 phasebits; mret (Z.land (phase + 123457) (m - 1)).

Fixpoint prn_phases (phasebits : Z) (count : nat) (phase : Z)
  : attempt (list Z) :=
  match count with
  | O => mret []
  | S count' =>
      p ← next_phase phasebits phase;
      ps ← prn_phases phasebits count' p;
      mret (p :: ps)
  end.


(** ** Vocabulary for the driver *)


(** the eight bytes that decode to [v], as the device sends them *)
Definition encode_i (v : Z) : list Z :=
  let u := (v mod 2 ^ 32)%Z in
  [(u mod 256)%Z; (u / 256 mod 256)%Z; (u / 65536 mod 256)%Z;
   (u / 16777216)%Z].

Definition encode_reply (v : Z * Z) : list Z := encode_i v.1 ++ encode_i v.2.

Definition int32_range (v : Z) : Prop := (- 2 ^ 31 ≤ v < 2 ^ 31)%Z.





(** * Properties *)


(** ** The error monad *)

Lemma result_bind_ok {A B} (a : A) (f : A → result B) : Ok a ≫= f = f a.
Proof. reflexivity. Qed.

(** ** int64 *)

Module Int64Facts.
Import Int64.
Local Open Scope Z_scope.

Lemma wrap64_range z : in_range (wrap64 z).
Proof.
  unfold in_range, wrap64, min_int, max_int.
  pose proof (Z.mod_pos_bound (z + 2 ^ 63) (2 ^ 64)). lia.
Qed.

Lemma wrap64_exact z : in_range z → wrap64 z = z.
Proof.
  unfold in_range, wrap64, min_int, max_int. intros H.
  rewrite Z.mod_small; lia.
Qed.

Lemma wrap64_eq_0 z : - 2 ^ 64 < z < 2 ^ 64 → wrap64 z = 0 → z = 0.
Proof. unfold wrap64. lia. Qed.

(** an int64 difference is zero only for equal operands *)
Lemma sub_eq_0 a b : in_range a → in_range b → sub a b = 0 ↔ a = b.
Proof.
  unfold in_range, min_int, max_int. intros Ha Hb. split.
  - intros H. apply wrap64_eq_0 in H; lia.
  - intros ->. unfold sub. rewrite Z.sub_diag. reflexivity.
Qed.

End Int64Facts.

(** ** Extrema of a non-empty integer vector *)

Section extrema.
Local Open Scope Z_scope.

Lemma foldl_min_le x r : foldl Z.min x r ≤ x.
Proof.
  revert x. induction r as [|y r IH]; intros x; simpl; [lia|].
  specialize (IH (x `min` y)). lia.
Qed.

Lemma foldl_min_lower x r y : y ∈ r → foldl Z.min x r ≤ y.
Proof.
  revert x. induction r as [|z r IH]; intros x Hy; simpl.
  - by apply elem_of_nil in Hy.
  - apply elem_of_cons in Hy as [->|Hy]; [|by apply IH].
    pose proof (foldl_min_le (x `min` z) r). lia.
Qed.

Lemma foldl_min_elem x r : foldl Z.min x r ∈ x :: r.
Proof.
  revert x. induction r as [|z r IH]; intros x; simpl; [set_solver|].
  specialize (IH (x `min` z)).
  apply elem_of_cons in IH as [IH|IH]; [|set_solver].
  rewrite IH. destruct (Z.min_spec x z) as [[_ ->]|[_ ->]]; set_solver.
Qed.

Lemma foldl_max_ge x r : x ≤ foldl Z.max x r.
Proof.
  revert x. induction r as [|y r IH]; intros x; simpl; [lia|].
  specialize (IH (x `max` y)). lia.
Qed.

Lemma foldl_max_upper x r y : y ∈ r → y ≤ foldl Z.max x r.
Proof.
  revert x. induction r as [|z r IH]; intros x Hy; simpl.
  - by apply elem_of_nil in Hy.
  - apply elem_of_cons in Hy as [->|Hy]; [|by apply IH].
    pose proof (foldl_max_ge (x `max` z) r). lia.
Qed.

Lemma foldl_max_elem x r : foldl Z.max x r ∈ x :: r.
Proof.
  revert x. induction r as [|z r IH]; intros x; simpl; [set_solver|].
  specialize (IH (x `max` z)).
  apply elem_of_cons in IH as [IH|IH]; [|set_solver].
  rewrite IH. destruct (Z.max_spec x z) as [[_ ->]|[_ ->]]; set_solver.
Qed.

Lemma np_amin_tabulate (f : nat → Z) n :
  (0 < n)%nat →
  ∃ m, np_amin (f <$> seq 0 n) = Ok m ∧ is_min_over n f m.
Proof.
  intros Hn. destruct n as [|n]; [lia|].
  change (f <$> seq 0 (S n)) with (f 0%nat :: (f <$> seq 1 n)).
  eexists; split; [reflexivity|]. split.
  - intros i Hi. destruct i as [|i].
    + apply foldl_min_le.
    + apply foldl_min_lower. apply list_elem_of_fmap.
      exists (S i). split; [done|]. apply elem_of_seq. lia.
  - pose proof (foldl_min_elem (f 0%nat) (f <$> seq 1 n)) as H.
    apply elem_of_cons in H as [H|H].
    + exists 0%nat. split; [lia|done].
    + apply list_elem_of_fmap in H as (i & -> & Hi).
      apply elem_of_seq in Hi. exists i. split; [lia|done].
Qed.

Lemma np_amax_tabulate (f : nat → Z) n :
  (0 < n)%nat →
  ∃ m, np_amax (f <$> seq 0 n) = Ok m ∧ is_max_over n f m.
Proof.
  intros Hn. destruct n as [|n]; [lia|].
  change (f <$> seq 0 (S n)) with (f 0%nat :: (f <$> seq 1 n)).
  eexists; split; [reflexivity|]. split.
  - intros i Hi. destruct i as [|i].
    + apply foldl_max_ge.
    + apply foldl_max_upper. apply list_elem_of_fmap.
      exists (S i). split; [done|]. apply elem_of_seq. lia.
  - pose proof (foldl_max_elem (f 0%nat) (f <$> seq 1 n)) as H.
    apply elem_of_cons in H as [H|H].
    + exists 0%nat. split; [lia|done].
    + apply list_elem_of_fmap in H as (i & -> & Hi).
      apply elem_of_seq in Hi. exists i. split; [lia|done].
Qed.

(** extrema are unique, and both vanish only for the zero function *)
Lemma extrema_zero n (f : nat → Z) lo hi :
  is_min_over n f lo → is_max_over n f hi →
  (lo = 0 ∧ hi = 0) ↔ ∀ i, (i < n)%nat → f i = 0.
Proof.
  intros [Hlo (i & Hi & Ei)] [Hhi (j & Hj & Ej)]. split.
  - intros [-> ->] k Hk. specialize (Hlo k Hk). specialize (Hhi k Hk). lia.
  - intros Hz. rewrite <- Ei, <- Ej. split; by apply Hz.
Qed.

Lemma is_min_over_ext n (f g : nat → Z) m :
  (∀ i, (i < n)%nat → f i = g i) → is_min_over n f m → is_min_over n g m.
Proof.
  intros E [H (i & Hi & Ei)]. split.
  - intros k Hk. rewrite <- E by done. by apply H.
  - exists i. split; [done|]. by rewrite <- E.
Qed.

Lemma is_max_over_ext n (f g : nat → Z) m :
  (∀ i, (i < n)%nat → f i = g i) → is_max_over n f m → is_max_over n g m.
Proof.
  intros E [H (i & Hi & Ei)]. split.
  - intros k Hk. rewrite <- E by done. by apply H.
  - exists i. split; [done|]. by rewrite <- E.
Qed.

End extrema.

(** ** Writing through a view *)

Section views.
Implicit Types (b rhs : list Z) (off stride p j n : nat).

Lemma length_isub_loop b off stride rhs :
  length (isub_loop b off stride rhs) = length b.
Proof.
  revert b off. induction rhs as [|r rhs IH]; intros b off; simpl; [done|].
  by rewrite IH, length_alter.
Qed.

(** positions outside the window keep their value *)
Lemma isub_loop_miss b off stride rhs p :
  (∀ j, j < length rhs → p ≠ off + j * stride) →
  isub_loop b off stride rhs !!! p = b !!! p.
Proof.
  revert b off. induction rhs as [|r rhs IH]; intros b off Hp; simpl; [done|].
  rewrite IH.
  - apply list_lookup_total_alter_ne. specialize (Hp 0). simpl in Hp. lia.
  - intros j Hj. specialize (Hp (S j)). simpl in Hp. lia.
Qed.

(** the j-th position of the window receives [old - rhs[j]] *)
Lemma isub_loop_hit b off stride rhs j :
  0 < stride → j < length rhs → off + j * stride < length b →
  isub_loop b off stride rhs !!! (off + j * stride) =
    Int64.sub (b !!! (off + j * stride)) (rhs !!! j).
Proof.
  intros Hs. revert b off j.
  induction rhs as [|r rhs IH]; intros b off j Hj Hb; simpl in *; [lia|].
  destruct j as [|j].
  - rewrite isub_loop_miss by (intros; nia).
    replace (off + 0 * stride) with off in * by lia.
    by rewrite list_lookup_total_alter_eq.
  - replace (off + S j * stride) with (off + stride + j * stride) in * by lia.
    rewrite IH; [|lia|by rewrite length_alter].
    rewrite list_lookup_total_alter_ne by nia. done.
Qed.

Lemma length_view_read b (v : view) : length (view_read b v) = v_len v.
Proof. unfold view_read. by rewrite length_fmap, length_seq. Qed.

Lemma lookup_total_view_read b (v : view) j :
  j < v_len v → view_read b v !!! j = b !!! (v_off v + j * v_stride v).
Proof.
  intros Hj. unfold view_read.
  by rewrite list_lookup_total_alt, list_lookup_fmap, lookup_seq_lt.
Qed.

Lemma broadcast_to_same n rhs : length rhs = n → broadcast_to n rhs = Ok rhs.
Proof. intros <-. unfold broadcast_to. by rewrite Nat.eqb_refl. Qed.

Lemma np_add_same (xs ys : list Z) :
  length xs = length ys → np_add xs ys = Ok (zip_with Int64.add xs ys).
Proof. intros H. unfold np_add. by rewrite H, Nat.eqb_refl. Qed.

End views.

(** ** The quarter-period and half-period checks *)

(** the two-slice pairing is the shift by N/4 modulo N *)
Lemma shifted_index_mod n i :
  n mod 4 = 0 → i < n → shifted_index n i = (i + n / 4) mod n.
Proof.
  intros Hn Hi. unfold shifted_index.
  destruct (Nat.ltb_spec i (3 * n / 4)).
  - symmetry. apply Nat.mod_small. lia.
  - apply (Nat.mod_unique _ _ 1); lia.
Qed.

Lemma pow2_multiple_of_4 n : 4 ≤ n → (∃ k, n = 2 ^ k) → n mod 4 = 0.
Proof.
  intros Hn [k ->]. destruct k as [|[|k]]; simpl in Hn; try lia.
  replace (2 ^ S (S k)) with (2 ^ k * 4) by (simpl; lia).
  apply Nat.Div0.mod_mul.
Qed.

Lemma valid_analysable a n : valid_sample_set a n → analysable a n.
Proof.
  intros (Hwf & Hn & Hp). split; [done|]. split; [done|].
  by apply pow2_multiple_of_4.
Qed.

Section structural.
Variables (a : ndarray) (n : nat).
Hypothesis Hlen : length (buf a) = 2 * n.
Hypothesis Hn4 : 4 ≤ n.
Hypothesis Hmod : n mod 4 = 0.

Lemma length_dsin : length (dsin_of n (buf a)) = n.
Proof. apply length_view_read. Qed.

Lemma dsin_lookup i : i < n → dsin_of n (buf a) !!! i = sin_values a i.
Proof.
  intros Hi. unfold dsin_of. rewrite lookup_total_view_read by done.
  unfold sin_values. simpl. f_equal. lia.
Qed.

Lemma length_buf_after : length (buf_after n (buf a)) = length (buf a).
Proof. unfold buf_after, buf_after_first. by rewrite !length_isub_loop. Qed.

(** the sine column is never written *)
Lemma buf_after_sin i :
  i < n → buf_after n (buf a) !!! (2 * i) = sin_values a i.
Proof.
  intros Hi. unfold buf_after, buf_after_first.
  rewrite !isub_loop_miss; [done|intros; lia..].
Qed.

(** the cosine column holds the differences *)
Lemma buf_after_cos i :
  i < n → buf_after n (buf a) !!! (2 * i + 1) = quarter_diff a n i.
Proof.
  intros Hi. unfold quarter_diff, shifted_index, cos_values.
  pose proof length_dsin as Hd.
  destruct (Nat.ltb_spec i (3 * n / 4)) as [Hlt|Hge].
  - unfold buf_after. rewrite isub_loop_miss.
    2:{ intros j Hj. rewrite length_take, Hd in Hj. lia. }
    unfold buf_after_first. replace (2 * i + 1) with (1 + i * 2) by lia.
    rewrite isub_loop_hit; [|lia|rewrite length_drop, Hd; lia|lia].
    rewrite lookup_total_drop, dsin_lookup by lia.
    do 2 f_equal. lia.
  - unfold buf_after.
    replace (2 * i + 1) with (1 + 3 * n / 4 * 2 + (i - 3 * n / 4) * 2) by lia.
    rewrite isub_loop_hit;
      [|lia|rewrite length_take, Hd; lia
       |unfold buf_after_first; rewrite length_isub_loop; lia].
    rewrite lookup_total_take_lt, dsin_lookup by lia.
    unfold buf_after_first. rewrite isub_loop_miss; [done|].
    intros j Hj. rewrite length_drop, Hd in Hj. lia.
Qed.

Lemma read_dcos :
  view_read (buf_after n (buf a)) (column n 1) = quarter_diff a n <$> seq 0 n.
Proof.
  unfold view_read. simpl. apply list_fmap_ext.
  intros k i Hk. apply lookup_seq in Hk as [-> Hk].
  rewrite <- buf_after_cos by done. f_equal. lia.
Qed.

Lemma read_half_sum :
  zip_with Int64.add (take (n / 2) (dsin_of n (buf a)))
    (drop (n / 2) (dsin_of n (buf a))) =
  half_sum a n <$> seq 0 (n / 2).
Proof.
  pose proof length_dsin as Hd.
  apply list_eq_same_length with (n / 2).
  - by rewrite length_fmap, length_seq.
  - rewrite length_zip_with, length_take, length_drop, Hd. lia.
  - intros i x y Hi Hx Hy.
    apply lookup_zip_with_Some in Hx as (u & v & -> & Hu & Hv).
    rewrite list_lookup_fmap, lookup_seq_lt in Hy by done.
    change (Some (half_sum a n i) = Some y) in Hy.
    injection Hy as <-. unfold half_sum.
    apply list_lookup_total_correct in Hu, Hv.
    rewrite lookup_total_take_lt in Hu by lia.
    rewrite lookup_total_drop in Hv.
    rewrite dsin_lookup in Hu, Hv by lia.
    rewrite <- Hu, <- Hv. do 2 f_equal. lia.
Qed.

(** The checks never raise on an array that passes the assertions; their
    four results are the extrema of [quarter_diff] and [half_sum]. *)
Lemma structural_checks_spec :
  ∃ chk,
    structural_checks n (buf a) =
      Ok (dsin_of n (buf a), chk, buf_after n (buf a)) ∧
    is_min_over n (quarter_diff a n) (cos_tmin chk) ∧
    is_max_over n (quarter_diff a n) (cos_tmax chk) ∧
    is_min_over (n / 2) (half_sum a n) (half_tmin chk) ∧
    is_max_over (n / 2) (half_sum a n) (half_tmax chk).
Proof.
  pose proof length_dsin as Hd.
  destruct (np_amin_tabulate (quarter_diff a n) n) as (m1 & E1 & H1); [lia|].
  destruct (np_amax_tabulate (quarter_diff a n) n) as (m2 & E2 & H2); [lia|].
  destruct (np_amin_tabulate (half_sum a n) (n / 2)) as (m3 & E3 & H3); [lia|].
  destruct (np_amax_tabulate (half_sum a n) (n / 2)) as (m4 & E4 & H4); [lia|].
  exists (IdentityChecks m1 m2 m3 m4). split; [|done].
  unfold structural_checks. fold (dsin_of n (buf a)).
  assert (slice (column n 1) 0 (3 * n / 4) = View 1 2 (3 * n / 4)) as ->.
  { unfold slice, column; cbn [v_len v_off v_stride]. f_equal; lia. }
  assert (slice_from (column n 1) (3 * n / 4) =
          View (1 + 3 * n / 4 * 2) 2 (n / 4)) as ->.
  { unfold slice_from, slice, column; cbn [v_len v_off v_stride].
    f_equal; lia. }
  unfold view_isub; cbn [v_len v_off v_stride].
  rewrite (broadcast_to_same _ (drop (n / 4) (dsin_of n (buf a))))
    by (rewrite length_drop, Hd; lia).
  rewrite !result_bind_ok.
  rewrite (broadcast_to_same _ (take (n / 4) (dsin_of n (buf a))))
    by (rewrite length_take, Hd; lia).
  rewrite !result_bind_ok.
  fold (buf_after_first n (buf a)). fold (buf_after n (buf a)).
  rewrite read_dcos, E1, result_bind_ok, E2, result_bind_ok.
  rewrite np_add_same by (rewrite length_take, length_drop, Hd; lia).
  rewrite result_bind_ok, read_half_sum, E3, result_bind_ok, E4.
  done.
Qed.

End structural.

(** ** Extrema of a non-empty real vector *)

Section real_extrema.
Local Open Scope R_scope.

Lemma foldl_Rmax_ge x r : x <= foldl Rmax x r.
Proof.
  revert x. induction r as [|y r IH]; intros x; simpl; [lra|].
  specialize (IH (Rmax x y)). pose proof (Rmax_l x y). lra.
Qed.

Lemma foldl_Rmax_upper x r y : y ∈ r → y <= foldl Rmax x r.
Proof.
  revert x. induction r as [|z r IH]; intros x Hy; simpl.
  - by apply elem_of_nil in Hy.
  - apply elem_of_cons in Hy as [->|Hy]; [|by apply IH].
    pose proof (foldl_Rmax_ge (Rmax x z) r). pose proof (Rmax_r x z). lra.
Qed.

Lemma foldl_Rmax_elem x r : foldl Rmax x r ∈ x :: r.
Proof.
  revert x. induction r as [|z r IH]; intros x; simpl; [set_solver|].
  specialize (IH (Rmax x z)).
  apply elem_of_cons in IH as [IH|IH]; [|set_solver].
  rewrite IH. destruct (Rmax_case x z (λ m, m = x ∨ m = z)) as [->| ->];
    auto; set_solver.
Qed.

Lemma np_amax_f_tabulate (f : nat → R) lo len :
  (0 < len)%nat →
  ∃ m, np_amax_f (f <$> seq lo len) = Ok m ∧ is_Rmax_over lo len f m.
Proof.
  intros Hn. destruct len as [|len]; [lia|].
  change (f <$> seq lo (S len)) with (f lo :: (f <$> seq (S lo) len)).
  eexists; split; [reflexivity|]. split.
  - intros i Hi. destruct (decide (i = lo)) as [->|Hne].
    + apply foldl_Rmax_ge.
    + apply foldl_Rmax_upper. apply list_elem_of_fmap.
      exists i. split; [done|]. apply elem_of_seq. lia.
  - pose proof (foldl_Rmax_elem (f lo) (f <$> seq (S lo) len)) as H.
    apply elem_of_cons in H as [H|H].
    + exists lo. split; [lia|done].
    + apply list_elem_of_fmap in H as (i & -> & Hi).
      apply elem_of_seq in Hi. exists i. split; [lia|done].
Qed.

End real_extrema.

(** ** Sums and tabulated vectors *)

Section tabulate.
Local Open Scope R_scope.

Lemma zip_with_tabulate {A B C} (g : A → B → C) (u : nat → A) (v : nat → B) l :
  zip_with g (u <$> l) (v <$> l) = (λ i, g (u i) (v i)) <$> l.
Proof. by rewrite zip_with_fmap_l, zip_with_fmap_r, zip_with_diag. Qed.

Lemma np_sum_snoc xs x : np_sum (xs ++ [x]) = np_sum xs + x.
Proof.
  unfold np_sum. induction xs as [|y xs IH]; simpl; [lra|].
  rewrite IH. lra.
Qed.

Lemma np_sum_tabulate (f : nat → R) n : np_sum (f <$> seq 0 n) = Rsum n f.
Proof.
  induction n as [|n IH]; [reflexivity|].
  rewrite seq_S, fmap_app. change (f <$> [(0 + n)%nat]) with [f n].
  rewrite np_sum_snoc, IH. reflexivity.
Qed.

Lemma Rsum_ext n (f g : nat → R) :
  (∀ i, (i < n)%nat → f i = g i) → Rsum n f = Rsum n g.
Proof.
  induction n as [|n IH]; intros E; simpl; [done|].
  rewrite IH, E by (intros; try apply E; lia). done.
Qed.



Lemma Rsum_zero n (f : nat → R) :
  (∀ i, (i < n)%nat → f i = 0) → Rsum n f = 0.
Proof.
  induction n as [|n IH]; intros H; simpl; [done|].
  rewrite IH, H by (intros; try apply H; lia). lra.
Qed.

Lemma np_mean_tabulate (f : nat → R) n :
  np_mean (f <$> seq 0 n) = mean_of n f.
Proof.
  unfold np_mean, mean_of.
  by rewrite np_sum_tabulate, length_fmap, length_seq.
Qed.

Lemma np_std_tabulate (e : nat → R) n :
  np_std (e <$> seq 0 n) = population_std n e.
Proof.
  unfold np_std, population_std.
  rewrite <- list_fmap_compose, !np_mean_tabulate. f_equal.
  unfold mean_of. f_equal. apply Rsum_ext. intros i _. simpl.
  apply pow2_abs.
Qed.

Lemma phase_ramp_tabulate n :
  phase_ramp n = (λ i, 2 * PI / INR n * INR i) <$> seq 0 n.
Proof. unfold phase_ramp, np_arange. by rewrite <- list_fmap_compose. Qed.

End tabulate.

(** ** The figures in closed form *)

Section figures_closed_form.
Local Open Scope R_scope.
Variables (a : ndarray) (n : nat).

Lemma fsin_tabulate : IZR <$> dsin_of n (buf a) = fsin a <$> seq 0 n.
Proof.
  unfold dsin_of, view_read. rewrite <- list_fmap_compose.
  apply list_fmap_ext. intros k i Hk. simpl.
  unfold fsin, sin_values. do 2 f_equal. lia.
Qed.

Lemma asin_of_spec : asin_of n (fsin a <$> seq 0 n) = spec_asin a n.
Proof.
  unfold asin_of, spec_asin.
  rewrite phase_ramp_tabulate, <- list_fmap_compose, zip_with_tabulate.
  rewrite np_sum_tabulate.
  rewrite (Rsum_ext n _ (λ i, fsin a i * sin (theta n i))).
  - unfold Rdiv. ring.
  - intros i _. simpl. unfold theta. do 2 f_equal. unfold Rdiv. ring.
Qed.

Lemma acos_of_spec : acos_of n (fsin a <$> seq 0 n) = spec_acos a n.
Proof.
  unfold acos_of, spec_acos.
  rewrite phase_ramp_tabulate, <- list_fmap_compose, zip_with_tabulate.
  rewrite np_sum_tabulate.
  rewrite (Rsum_ext n _ (λ i, fsin a i * cos (theta n i))).
  - unfold Rdiv. ring.
  - intros i _. simpl. unfold theta. do 2 f_equal. unfold Rdiv. ring.
Qed.

Lemma ampl_of_spec : ampl_of n (fsin a <$> seq 0 n) = spec_amplitude a n.
Proof. unfold ampl_of. by rewrite asin_of_spec, acos_of_spec. Qed.

Lemma terr_of_spec :
  terr_of n (fsin a <$> seq 0 n) =
    spec_error a n (spec_amplitude a n) <$> seq 0 n.
Proof.
  unfold terr_of. rewrite ampl_of_spec.
  rewrite phase_ramp_tabulate, <- !list_fmap_compose, zip_with_tabulate.
  apply list_fmap_ext. intros k i _. simpl. unfold spec_error, theta.
  do 3 f_equal. unfold Rdiv. ring.
Qed.

Lemma rfft_bin_spec k : rfft_bin (fsin a <$> seq 0 n) k = dft_bin a n k.
Proof.
  unfold rfft_bin, dft_bin. rewrite length_fmap, length_seq.
  rewrite !zip_with_fmap_l, !zip_with_diag, !np_sum_tabulate.
  reflexivity.
Qed.

Lemma np_rfft_spec :
  np_rfft (fsin a <$> seq 0 n) = dft_bin a n <$> seq 0 (n / 2 + 1).
Proof.
  unfold np_rfft. rewrite length_fmap, length_seq.
  apply list_fmap_ext. intros k i _. apply rfft_bin_spec.
Qed.

(** [figures] never raises on a record of at least four samples, and its
    report is given by the closed forms above. *)
Lemma figures_spec chk :
  (4 ≤ n)%nat →
  ∃ peak tspur,
    let amplitude := spec_amplitude a n in
    let rms := population_std n (spec_error a n amplitude) in
    figures n (dsin_of n (buf a)) chk =
      Ok (Report chk (spec_offset a n) amplitude (spec_phase a n) peak rms
            (sinad_of amplitude rms) (enob_of (sinad_of amplitude rms))
            (decibels (np_true_divide (bin_magnitude a n 1) tspur))) ∧
    is_Rmax_over 0 n (λ i, Rabs (spec_error a n amplitude i)) peak ∧
    is_Rmax_over 2 (n / 2 - 1) (bin_magnitude a n) tspur.
Proof.
  intros Hn.
  destruct (np_amax_f_tabulate
              (λ i, Rabs (spec_error a n (spec_amplitude a n) i)) 0 n)
    as (peak & Epeak & Hpeak); [lia|].
  destruct (np_amax_f_tabulate (bin_magnitude a n) 2 (n / 2 - 1))
    as (tspur & Espur & Hspur); [lia|].
  exists peak, tspur. cbv zeta. split; [|done].
  unfold figures. cbv zeta. rewrite fsin_tabulate.
  fold (asin_of n (fsin a <$> seq 0 n)) (acos_of n (fsin a <$> seq 0 n)).
  fold (ampl_of n (fsin a <$> seq 0 n)).
  fold (terr_of n (fsin a <$> seq 0 n)).
  rewrite terr_of_spec, ampl_of_spec, asin_of_spec, acos_of_spec.
  rewrite <- list_fmap_compose. 
  change (Rabs ∘ spec_error a n (spec_amplitude a n))
    with (λ i, Rabs (spec_error a n (spec_amplitude a n) i)).
  rewrite Epeak, result_bind_ok.
  rewrite np_rfft_spec, list_lookup_fmap, lookup_seq_lt by lia.
  cbn [fmap option_fmap option_map from_option]. rewrite result_bind_ok.
  rewrite <- fmap_drop, <- list_fmap_compose, drop_seq.
  replace (n / 2 + 1 - 2)%nat with (n / 2 - 1)%nat by lia.
  change (np_abs_c ∘ dft_bin a n) with (bin_magnitude a n).
  change (0 + 2)%nat with 2%nat.
  rewrite Espur, result_bind_ok.
  rewrite np_mean_tabulate, np_std_tabulate.
  reflexivity.
Qed.

End figures_closed_form.

(** ** [eval_sine_quality] on an array that passes its assertions *)

Lemma eval_sine_quality_spec a n :
  analysable a n →
  ∃ rep, eval_sine_quality a = Ok (rep, data_after a n) ∧ describes a n rep.
Proof.
  intros ((Hshape & Hlen & _) & Hn & Hmod).
  destruct (structural_checks_spec a n Hlen Hn Hmod)
    as (chk & Echk & H1 & H2 & H3 & H4).
  destruct (figures_spec a n chk Hn) as (peak & tspur & Efig & Hpeak & Hspur).
  cbv zeta in Efig, Hpeak.
  eexists. split.
  - unfold eval_sine_quality. rewrite Hshape.
    change ([n; 2] !!! 1) with 2. change ([n; 2] !!! 0) with n.
    change (length [n; 2] =? 2) with true. change (2 =? 2) with true.
    replace ((4 <=? n) && (n mod 4 =? 0)) with true.
    2:{ symmetry. apply andb_true_iff. split.
        - by apply Nat.leb_le.
        - by apply Nat.eqb_eq. }
    unfold assert. rewrite !result_bind_ok, Echk, result_bind_ok.
    cbv beta iota. rewrite Efig, result_bind_ok.
    unfold data_after. rewrite Hshape. reflexivity.
  - unfold describes. cbn [checks offs ampl phase peakerr rmserr sinad enob sfdr].
    repeat (split; [done|]). by exists tspur.
Qed.

(** an array of shape (n, 2) whose length fails the third assertion *)
Lemma eval_sine_quality_assertion a n :
  wf_array a n → ¬ (4 ≤ n ∧ n mod 4 = 0) →
  eval_sine_quality a = Raise AssertionError.
Proof.
  intros (Hshape & _ & _) Hn. unfold eval_sine_quality. rewrite Hshape.
  change ([n; 2] !!! 1) with 2. change ([n; 2] !!! 0) with n.
  change (length [n; 2] =? 2) with true. change (2 =? 2) with true.
  replace ((4 <=? n) && (n mod 4 =? 0)) with false; [done|].
  symmetry. apply andb_false_iff.
  destruct (Nat.leb_spec 4 n); [right|by left].
  apply Nat.eqb_neq. intros E. apply Hn. by split.
Qed.

(** ** The power-of-two test of [main] *)

Section power_of_two.
Local Open Scope Z_scope.

Lemma land_pred_pow2 k : 0 ≤ k → Z.land (2 ^ k) (2 ^ k - 1) = 0.
Proof.
  intros Hk. rewrite Z.sub_1_r, <- Z.ones_equiv, Z.land_ones by done.
  apply Z.mod_same. lia.
Qed.

Lemma land_pred_0_pow2 p : 0 < p → Z.land p (p - 1) = 0 → p = 2 ^ Z.log2 p.
Proof.
  intros Hp H. destruct (Z.log2_spec p Hp) as [Hlo Hhi].
  destruct (decide (p = 2 ^ Z.log2 p)) as [|Hne]; [done|exfalso].
  assert (Hpos : 0 < 2 ^ Z.log2 p)
    by (apply Z.pow_pos_nonneg; [lia|apply Z.log2_nonneg]).
  assert (Hk : Z.log2 (p - 1) = Z.log2 p).
  { apply Z.log2_unique; [apply Z.log2_nonneg|]. lia. }
  assert (Hb : Z.testbit (Z.land p (p - 1)) (Z.log2 p) = true).
  { rewrite Z.land_spec, Z.bit_log2 by done.
    rewrite <- Hk. rewrite Z.bit_log2 by lia. done. }
  rewrite H, Z.bits_0 in Hb. done.
Qed.

Lemma land_pred_iff p :
  0 < p → Z.land p (p - 1) = 0 ↔ ∃ k, 0 ≤ k ∧ p = 2 ^ k.
Proof.
  intros Hp. split.
  - intros H. exists (Z.log2 p). split; [apply Z.log2_nonneg|].
    by apply land_pred_0_pow2.
  - intros (k & Hk & ->). by apply land_pred_pow2.
Qed.

End power_of_two.

(** [main] lets a record length through exactly when it is a power of two
    that is at least 4 *)
Lemma bad_length_false n : bad_length n = false ↔ 4 ≤ n ∧ ∃ k, n = 2 ^ k.
Proof.
  unfold bad_length. rewrite orb_false_iff, negb_false_iff.
  rewrite Nat.ltb_ge, Z.eqb_eq. split.
  - intros [Hn H]. split; [done|].
    apply land_pred_iff in H as (k & Hk & E); [|lia].
    exists (Z.to_nat k). apply Nat2Z.inj.
    rewrite Nat2Z.inj_pow, Z2Nat.id by done. done.
  - intros [Hn [k ->]]. split; [done|].
    apply land_pred_iff.
    + lia.
    + exists (Z.of_nat k). split; [lia|]. by rewrite Nat2Z.inj_pow.
Qed.

Lemma bad_length_true n : bad_length n = true ↔ n < 4 ∨ ¬ ∃ k, n = 2 ^ k.
Proof.
  rewrite <- not_false_iff_true, bad_length_false. split.
  - intros H. destruct (decide (n < 4)); [by left|right].
    intros Hk. apply H. split; [lia|done].
  - intros [H|H] [Hn Hk]; [lia|done].
Qed.

Lemma main_gate a n :
  wf_array a n →
  main a = if bad_length n then ShapeError
           else match eval_sine_quality a with
                | Ok (rep, data') => Finished rep data'
                | Raise e => Uncaught e
                end.
Proof.
  intros (Hshape & _ & _). unfold main. rewrite Hshape.
  change ([n; 2] !!! 1) with 2. change ([n; 2] !!! 0) with n.
  change (length [n; 2] =? 2) with true. change (2 =? 2) with true.
  reflexivity.
Qed.

(** ** Concrete sample sets *)

Lemma is_min_over_unique n f m m' :
  is_min_over n f m → is_min_over n f m' → m = m'.
Proof.
  intros [H (i & Hi & Ei)] [H' (j & Hj & Ej)].
  specialize (H j Hj). specialize (H' i Hi). lia.
Qed.

Lemma is_max_over_unique n f m m' :
  is_max_over n f m → is_max_over n f m' → m = m'.
Proof.
  intros [H (i & Hi & Ei)] [H' (j & Hj & Ej)].
  specialize (H j Hj). specialize (H' i Hi). lia.
Qed.

Lemma valid_unit_period : valid_sample_set unit_period 4.
Proof. solve_valid 2. Qed.

Lemma valid_unit_period_after : valid_sample_set unit_period_after 4.
Proof. solve_valid 2. Qed.

Lemma valid_extreme_cosine : valid_sample_set extreme_cosine 4.
Proof. solve_valid 2. Qed.

Lemma valid_large_sine : valid_sample_set large_sine 4.
Proof. solve_valid 2. Qed.

Lemma valid_silence : valid_sample_set silence 4.
Proof. solve_valid 2. Qed.

Lemma valid_impulse : valid_sample_set impulse 4.
Proof. solve_valid 2. Qed.

Lemma wf_twelve : wf_array twelve 12.
Proof. solve_wf. Qed.

(** ** The argument array after the call *)

(** On every array that passes the assertions the sine column is left as
    it was and the cosine column is overwritten with the differences. *)
Lemma eval_sine_quality_frame a n :
  analysable a n →
  ∀ i, i < n →
    sin_values (data_after a n) i = sin_values a i ∧
    cos_values (data_after a n) i = quarter_diff a n i.
Proof.
  intros ((_ & Hlen & _) & Hn & Hmod) i Hi. split.
  - by apply buf_after_sin.
  - by apply buf_after_cos.
Qed.

(** C1, on the unit period of length 4: the first call reports an exact
    quarter-period identity and leaves the differences in the cosine column
    of its argument; a second call on the same array then reports the band
    (-1 .. 1).  The input is not preserved and the analysis is not
    idempotent. *)
Theorem eval_sine_quality_overwrites_cosine :
  ∃ rep1 rep2 d2,
    eval_sine_quality unit_period = Ok (rep1, unit_period_after) ∧
    unit_period_after ≠ unit_period ∧
    eval_sine_quality unit_period_after = Ok (rep2, d2) ∧
    report_line (cos_tmin (checks rep1)) (cos_tmax (checks rep1)) = Exactly ∧
    report_line (cos_tmin (checks rep2)) (cos_tmax (checks rep2)) =
      Within (-1) 1.
Proof.
  destruct (eval_sine_quality_spec unit_period 4) as (rep1 & E1 & D1);
    [apply valid_analysable, valid_unit_period|].
  destruct (eval_sine_quality_spec unit_period_after 4) as (rep2 & E2 & D2);
    [apply valid_analysable, valid_unit_period_after|].
  destruct D1 as (Hlo1 & Hhi1 & _). destruct D2 as (Hlo2 & Hhi2 & _).
  exists rep1, rep2, (data_after unit_period_after 4).
  split; [exact E1|]. split; [discriminate|]. split; [exact E2|].
  rewrite (is_min_over_unique _ _ _ 0%Z Hlo1) by solve_over 0.
  rewrite (is_max_over_unique _ _ _ 0%Z Hhi1) by solve_over 0.
  rewrite (is_min_over_unique _ _ _ (-1)%Z Hlo2) by solve_over 0.
  rewrite (is_max_over_unique _ _ _ 1%Z Hhi2) by solve_over 2.
  split; reflexivity.
Qed.

(** ** Samples are int64 values *)

Lemma sin_values_range a n i :
  wf_array a n → i < n → Int64.in_range (sin_values a i).
Proof.
  intros (_ & Hlen & Hall) Hi. unfold sin_values.
  apply Forall_lookup_total_1; [done|lia].
Qed.

Lemma cos_values_range a n i :
  wf_array a n → i < n → Int64.in_range (cos_values a i).
Proof.
  intros (_ & Hlen & Hall) Hi. unfold cos_values.
  apply Forall_lookup_total_1; [done|lia].
Qed.

Lemma shifted_index_lt n i : n mod 4 = 0 → i < n → shifted_index n i < n.
Proof.
  intros Hn Hi. unfold shifted_index.
  destruct (Nat.ltb_spec i (3 * n / 4)); lia.
Qed.

(** ** C2: the quarter-period check *)

(** C2 as stated fails: the differences are formed in int64.  With a
    cosine code of -2^63 against a sine code of 1 the exact difference
    -2^63 - 1 is below every value the check can report. *)
Lemma quarter_check_wraps :
  valid_sample_set extreme_cosine 4 ∧
  ∃ rep d,
    eval_sine_quality extreme_cosine = Ok (rep, d) ∧
    cos_tmin (checks rep) = (-1)%Z ∧
    cos_tmax (checks rep) = 9223372036854775807%Z ∧
    quarter_exact extreme_cosine 4 0 = (-9223372036854775809)%Z ∧
    ¬ is_min_over 4 (quarter_exact extreme_cosine 4) (cos_tmin (checks rep)).
Proof.
  split; [apply valid_extreme_cosine|].
  destruct (eval_sine_quality_spec extreme_cosine 4) as (rep & E & D);
    [apply valid_analysable, valid_extreme_cosine|].
  destruct D as (Hlo & Hhi & _).
  exists rep, (data_after extreme_cosine 4). split; [exact E|].
  rewrite (is_min_over_unique _ _ _ (-1)%Z Hlo) by solve_over 1.
  rewrite (is_max_over_unique _ _ _ 9223372036854775807%Z Hhi)
    by solve_over 0.
  split; [reflexivity|]. split; [reflexivity|]. split; [reflexivity|].
  intros [Hle _]. specialize (Hle 0 ltac:(lia)). vm_compute in Hle.
  by apply Hle.
Qed.

(** C2, amended: the check reports the least and the greatest int64
    difference cos[i] - sin[s(i)], where s(i) is i + N/4 on the first 3N/4
    positions and i - 3N/4 on the last N/4, which is (i + N/4) mod N; the
    range is (0, 0) exactly when cos[i] = sin[(i + N/4) mod N] for all i;
    and where no difference leaves the int64 range the reported values are
    the extrema of the exact differences. *)
Theorem quarter_period_check a n :
  valid_sample_set a n →
  ∃ rep,
    eval_sine_quality a = Ok (rep, data_after a n) ∧
    let lo := cos_tmin (checks rep) in
    let hi := cos_tmax (checks rep) in
    is_min_over n (quarter_diff a n) lo ∧
    is_max_over n (quarter_diff a n) hi ∧
    (∀ i, i < n → shifted_index n i = (i + n / 4) mod n) ∧
    ((lo = 0 ∧ hi = 0)%Z ↔
       ∀ i, i < n → cos_values a i = sin_values a ((i + n / 4) mod n)) ∧
    ((∀ i, i < n → Int64.in_range (quarter_exact a n i)) →
       is_min_over n (quarter_exact a n) lo ∧
       is_max_over n (quarter_exact a n) hi).
Proof.
  intros Hv. pose proof (valid_analysable a n Hv) as Han.
  destruct Han as (Hwf & Hn & Hmod).
  destruct (eval_sine_quality_spec a n) as (rep & E & D); [done|].
  destruct D as (Hlo & Hhi & _).
  exists rep. split; [exact E|]. cbv zeta.
  split; [exact Hlo|]. split; [exact Hhi|].
  split; [intros i Hi; by apply shifted_index_mod|].
  split.
  - rewrite (extrema_zero n (quarter_diff a n) _ _ Hlo Hhi).
    assert (Hiff : ∀ i, i < n →
              quarter_diff a n i = 0%Z ↔
              cos_values a i = sin_values a ((i + n / 4) mod n)).
    { intros i Hi. unfold quarter_diff. rewrite shifted_index_mod by done.
      apply Int64Facts.sub_eq_0.
      - by apply (cos_values_range a n).
      - apply (sin_values_range a n); [done|].
        rewrite <- shifted_index_mod by done. by apply shifted_index_lt. }
    split; intros H i Hi; apply Hiff; auto.
  - intros Hex.
    assert (Heq : ∀ i, i < n → quarter_diff a n i = quarter_exact a n i).
    { intros i Hi. unfold quarter_diff, Int64.sub.
      rewrite shifted_index_mod by done.
      apply Int64Facts.wrap64_exact. by apply Hex. }
    split.
    + by apply (is_min_over_ext n (quarter_diff a n)).
    + by apply (is_max_over_ext n (quarter_diff a n)).
Qed.

Lemma quarter_period_check_witness :
  valid_sample_set unit_period 4 ∧
  ∃ rep,
    eval_sine_quality unit_period = Ok (rep, data_after unit_period 4) ∧
    is_min_over 4 (quarter_diff unit_period 4) (cos_tmin (checks rep)) ∧
    is_max_over 4 (quarter_diff unit_period 4) (cos_tmax (checks rep)).
Proof.
  assert (Hv : valid_sample_set unit_period 4) by solve_valid 2.
  split; [exact Hv|].
  destruct (quarter_period_check unit_period 4 Hv) as (rep & E & Hlo & Hhi & _).
  exists rep. split; [exact E|]. split; [exact Hlo|exact Hhi].
Defined.

(** ** C3: the half-period check *)

(** C3 as stated fails: the sums are formed in int64.  Two sine codes of
    2^62 half a period apart add up to 2^63, which wraps to -2^63. *)
Lemma half_check_wraps :
  valid_sample_set large_sine 4 ∧
  ∃ rep d,
    eval_sine_quality large_sine = Ok (rep, d) ∧
    half_tmin (checks rep) = (-9223372036854775808)%Z ∧
    half_tmax (checks rep) = 0%Z ∧
    half_exact large_sine 4 0 = 9223372036854775808%Z ∧
    ¬ is_max_over 2 (half_exact large_sine 4) (half_tmax (checks rep)).
Proof.
  split; [apply valid_large_sine|].
  destruct (eval_sine_quality_spec large_sine 4) as (rep & E & D);
    [apply valid_analysable, valid_large_sine|].
  destruct D as (_ & _ & Hlo & Hhi & _).
  exists rep, (data_after large_sine 4). split; [exact E|].
  rewrite (is_min_over_unique _ _ _ (-9223372036854775808)%Z Hlo)
    by solve_over 0.
  rewrite (is_max_over_unique _ _ _ 0%Z Hhi) by solve_over 1.
  split; [reflexivity|]. split; [reflexivity|]. split; [reflexivity|].
  intros [Hle _]. specialize (Hle 0 ltac:(lia)). vm_compute in Hle.
  by apply Hle.
Qed.

(** C3, amended: the check reports the least and the greatest int64 sum
    sin[i] + sin[i + N/2] over i in [0, N/2), with no tolerance; where no
    sum leaves the int64 range these are the extrema of the exact sums. *)
Theorem half_period_check a n :
  valid_sample_set a n →
  ∃ rep,
    eval_sine_quality a = Ok (rep, data_after a n) ∧
    let lo := half_tmin (checks rep) in
    let hi := half_tmax (checks rep) in
    is_min_over (n / 2) (half_sum a n) lo ∧
    is_max_over (n / 2) (half_sum a n) hi ∧
    ((∀ i, i < n / 2 → Int64.in_range (half_exact a n i)) →
       is_min_over (n / 2) (half_exact a n) lo ∧
       is_max_over (n / 2) (half_exact a n) hi).
Proof.
  intros Hv. pose proof (valid_analysable a n Hv) as Han.
  destruct (eval_sine_quality_spec a n) as (rep & E & D); [done|].
  destruct D as (_ & _ & Hlo & Hhi & _).
  exists rep. split; [exact E|]. cbv zeta.
  split; [exact Hlo|]. split; [exact Hhi|].
  intros Hex.
  assert (Heq : ∀ i, i < n / 2 → half_sum a n i = half_exact a n i).
  { intros i Hi. unfold half_sum, Int64.add.
    apply Int64Facts.wrap64_exact. by apply Hex. }
  split.
  - by apply (is_min_over_ext (n / 2) (half_sum a n)).
  - by apply (is_max_over_ext (n / 2) (half_sum a n)).
Qed.

Lemma half_period_check_witness :
  valid_sample_set unit_period 4 ∧
  ∃ rep,
    eval_sine_quality unit_period = Ok (rep, data_after unit_period 4) ∧
    is_min_over 2 (half_sum unit_period 4) (half_tmin (checks rep)) ∧
    is_max_over 2 (half_sum unit_period 4) (half_tmax (checks rep)).
Proof.
  assert (Hv : valid_sample_set unit_period 4) by solve_valid 2.
  split; [exact Hv|].
  destruct (half_period_check unit_period 4 Hv) as (rep & E & Hlo & Hhi & _).
  exists rep. split; [exact E|]. split; [exact Hlo|exact Hhi].
Defined.

(** ** C4: the shape gate *)

(** C4: on an int64 array of shape (N, 2), [main] exits with the
    record-length error, without a report, when N < 4 or N is not a power
    of two, and otherwise runs the analysis to its report; 1, 3, 6 and 1000
    are rejected, 4, 8 and 1024 are accepted. *)
Theorem shape_validation a n :
  wf_array a n →
  (n < 4 ∨ ¬ (∃ k, n = 2 ^ k) →
     main a = ShapeError ∧ ∀ rep d, main a ≠ Finished rep d) ∧
  (4 ≤ n ∧ (∃ k, n = 2 ^ k) →
     ∃ rep, main a = Finished rep (data_after a n) ∧
            eval_sine_quality a = Ok (rep, data_after a n)) ∧
  Forall (λ m, bad_length m = true) [1; 3; 6; 1000] ∧
  Forall (λ m, bad_length m = false) [4; 8; 1024].
Proof.
  intros Hwf. rewrite (main_gate a n Hwf). split; [|split].
  - intros H. apply bad_length_true in H. rewrite H. by split.
  - intros H. pose proof (proj2 (bad_length_false n) H) as Hb. rewrite Hb.
    destruct (eval_sine_quality_spec a n) as (rep & E & _).
    { apply valid_analysable. by split. }
    exists rep. by rewrite E.
  - split; repeat constructor.
Qed.

Lemma shape_validation_witness :
  wf_array unit_period 4 ∧
  ∃ rep, main unit_period = Finished rep (data_after unit_period 4).
Proof.
  assert (Hwf : wf_array unit_period 4) by solve_wf.
  split; [exact Hwf|].
  destruct (shape_validation unit_period 4 Hwf) as (_ & Hok & _).
  destruct Hok as (rep & E & _).
  { split; [lia|]. exists 2. reflexivity. }
  exists rep. exact E.
Defined.

(** ** C10: what the core function itself asks of its argument *)

(** C10: on an int64 array of shape (N, 2), [eval_sine_quality] runs to
    completion whenever N >= 4 and N is a multiple of 4, and fails its
    assertion otherwise; every length that [main] lets through satisfies
    this, but not conversely: for N = 12 the core function completes while
    [main] exits with the record-length error. *)
Theorem core_accepts_multiples_of_four a n :
  wf_array a n →
  (4 ≤ n ∧ n mod 4 = 0 → ∃ rep, eval_sine_quality a = Ok (rep, data_after a n)) ∧
  (¬ (4 ≤ n ∧ n mod 4 = 0) → eval_sine_quality a = Raise AssertionError) ∧
  (bad_length n = false → 4 ≤ n ∧ n mod 4 = 0) ∧
  (n = 12 →
     main a = ShapeError ∧
     ∃ rep, eval_sine_quality a = Ok (rep, data_after a n)).
Proof.
  intros Hwf.
  assert (Hrun : 4 ≤ n ∧ n mod 4 = 0 →
                 ∃ rep, eval_sine_quality a = Ok (rep, data_after a n)).
  { intros [Hn Hmod].
    destruct (eval_sine_quality_spec a n) as (rep & E & _); [by split|].
    by exists rep. }
  split; [exact Hrun|]. split; [by apply eval_sine_quality_assertion|].
  split.
  - intros H. apply bad_length_false in H as [Hn Hk].
    split; [done|]. by apply pow2_multiple_of_4.
  - intros ->. split.
    + by rewrite (main_gate a 12 Hwf).
    + apply Hrun. split; [lia|reflexivity].
Qed.

Lemma core_accepts_multiples_of_four_witness :
  wf_array twelve 12 ∧
  main twelve = ShapeError ∧
  ∃ rep, eval_sine_quality twelve = Ok (rep, data_after twelve 12).
Proof.
  assert (Hwf : wf_array twelve 12) by solve_wf.
  split; [exact Hwf|].
  destruct (core_accepts_multiples_of_four twelve 12 Hwf) as (_ & _ & _ & H).
  exact (H eq_refl).
Defined.

(** ** float64 operations *)

Section float_facts.
Local Open Scope R_scope.

Lemma sqrt_half_pos : 0 < sqrt 0.5.
Proof. apply sqrt_lt_R0. lra. Qed.

Lemma inf_of_sign_pos s : 0 < s → inf_of_sign s = PosInf.
Proof. intros H. unfold inf_of_sign. destruct (Rlt_dec 0 s); [done|lra]. Qed.


Lemma inf_of_sign_zero : inf_of_sign 0 = NaN.
Proof.
  unfold inf_of_sign.
  destruct (Rlt_dec 0 0); [lra|]. destruct (Rlt_dec 0 0); [lra|done].
Qed.


Lemma np_true_divide_by_zero x : np_true_divide x 0 = inf_of_sign x.
Proof. unfold np_true_divide. destruct (Req_dec_T 0 0); [done|lra]. Qed.



Lemma decibels_PosInf : decibels PosInf = PosInf.
Proof. unfold decibels. simpl. apply inf_of_sign_pos. lra. Qed.

Lemma decibels_NaN : decibels NaN = NaN.
Proof. reflexivity. Qed.


Lemma enob_of_PosInf : enob_of PosInf = PosInf.
Proof. unfold enob_of. simpl. destruct (Rlt_dec 6.02 0); [lra|done]. Qed.


Lemma enob_of_NaN : enob_of NaN = NaN.
Proof. reflexivity. Qed.



Lemma sinad_of_no_error A : 0 < A → sinad_of A 0 = PosInf.
Proof.
  intros HA. unfold sinad_of. pose proof sqrt_half_pos.
  rewrite np_true_divide_by_zero, inf_of_sign_pos.
  - apply decibels_PosInf.
  - by apply Rmult_lt_0_compat.
Qed.

Lemma sinad_of_nothing : sinad_of 0 0 = NaN.
Proof.
  unfold sinad_of. rewrite np_true_divide_by_zero.
  replace (0 * sqrt 0.5) with 0 by ring.
  rewrite inf_of_sign_zero. apply decibels_NaN.
Qed.

Lemma spec_amplitude_nonneg a n : 0 <= spec_amplitude a n.
Proof. apply sqrt_pos. Qed.


(** an error sequence that is zero throughout has no deviation *)
Lemma population_std_zero n (e : nat → R) :
  (∀ i, (i < n)%nat → e i = 0) → population_std n e = 0.
Proof.
  intros He. unfold population_std.
  assert (Hm : mean_of n e = 0).
  { unfold mean_of. rewrite Rsum_zero by done. unfold Rdiv. ring. }
  rewrite Hm. unfold mean_of.
  rewrite Rsum_zero by (intros i Hi; simpl; rewrite He by done; ring).
  replace (0 / INR n) with 0 by (unfold Rdiv; ring).
  apply sqrt_0.
Qed.

(** a record whose sine channel is zero has no amplitude and no error *)
Lemma silent_record a n :
  (∀ i, (i < n)%nat → sin_values a i = 0%Z) →
  spec_amplitude a n = 0 ∧ population_std n (spec_error a n 0) = 0.
Proof.
  intros Hz.
  assert (Hf : ∀ i, (i < n)%nat → fsin a i = 0).
  { intros i Hi. unfold fsin. by rewrite Hz. }
  split.
  - unfold spec_amplitude, spec_asin, spec_acos.
    rewrite !Rsum_zero by (intros i Hi; simpl; rewrite Hf by done; ring).
    replace ((2 / INR n * 0) ^ 2 + (2 / INR n * 0) ^ 2) with 0 by ring.
    apply sqrt_0.
  - apply population_std_zero. intros i Hi.
    unfold spec_error. rewrite Hf by done. ring.
Qed.

(** the unit period of length 4 is recovered with amplitude 1 and without
    error *)
Lemma theta_quarters :
  theta 4 0 = 0 ∧ theta 4 1 = PI / 2 ∧ theta 4 2 = PI ∧
  theta 4 3 = 3 * (PI / 2).
Proof. unfold theta. simpl. repeat split; lra. Qed.

Lemma unit_period_projection :
  spec_asin unit_period 4 = 1 ∧ spec_acos unit_period 4 = 0.
Proof.
  destruct theta_quarters as (T0 & T1 & T2 & T3).
  unfold spec_asin, spec_acos, fsin. cbn [Rsum].
  change (sin_values unit_period 0) with 0%Z.
  change (sin_values unit_period 1) with 1%Z.
  change (sin_values unit_period 2) with 0%Z.
  change (sin_values unit_period 3) with (-1)%Z.
  rewrite T0, T1, T2, T3.
  rewrite sin_0, sin_PI2, sin_PI, sin_3PI2, cos_0, cos_PI2, cos_PI, cos_3PI2.
  simpl INR. split; lra.
Qed.

Lemma unit_period_amplitude : spec_amplitude unit_period 4 = 1.
Proof.
  unfold spec_amplitude. destruct unit_period_projection as [-> ->].
  replace (1 ^ 2 + 0 ^ 2) with 1 by ring. apply sqrt_1.
Qed.

Lemma unit_period_error i :
  (i < 4)%nat → spec_error unit_period 4 1 i = 0.
Proof.
  destruct theta_quarters as (T0 & T1 & T2 & T3).
  intros Hi. unfold spec_error, fsin.
  destruct i as [|[|[|[|i]]]]; [| | | |lia].
  - change (sin_values unit_period 0) with 0%Z. rewrite T0, sin_0. lra.
  - change (sin_values unit_period 1) with 1%Z. rewrite T1, sin_PI2. lra.
  - change (sin_values unit_period 2) with 0%Z. rewrite T2, sin_PI. lra.
  - change (sin_values unit_period 3) with (-1)%Z. rewrite T3, sin_3PI2. lra.
Qed.

End float_facts.

(** a report is a function of the argument *)
Lemma eval_sine_quality_describes a n rep d :
  analysable a n → eval_sine_quality a = Ok (rep, d) →
  d = data_after a n ∧ describes a n rep.
Proof.
  intros Han E. destruct (eval_sine_quality_spec a n Han) as (rep' & E' & D).
  rewrite E in E'. by injection E' as -> ->.
Qed.

Section figure_claims.
Local Open Scope R_scope.

(** ** C5: a zero RMS error *)

Lemma silence_is_silent i : (i < 4)%nat → sin_values silence i = 0%Z.
Proof. intros Hi. do 4 (destruct i as [|i]; [reflexivity|]). lia. Qed.

(** C5 as stated fails: on the all-zero record the RMS error and the
    amplitude are both zero, the quotient 0 / 0 is formed without a guard,
    and the reported SINAD and ENOB are both NaN. *)
Lemma silence_reports_nan :
  valid_sample_set silence 4 ∧
  ∃ rep d,
    eval_sine_quality silence = Ok (rep, d) ∧
    rmserr rep = 0 ∧ ampl rep = 0 ∧
    sinad rep = NaN ∧ enob rep = NaN.
Proof.
  split; [apply valid_silence|].
  destruct (eval_sine_quality_spec silence 4) as (rep & E & D);
    [apply valid_analysable, valid_silence|].
  destruct D as (_ & _ & _ & _ & _ & HA & _ & _ & Hr & Hs & He & _).
  destruct (silent_record silence 4 silence_is_silent) as [HA0 Hr0].
  rewrite HA0 in HA. rewrite HA, Hr0 in Hr.
  rewrite HA, Hr, sinad_of_nothing in Hs. rewrite Hs, enob_of_NaN in He.
  exists rep, (data_after silence 4). by repeat split.
Qed.

(** In exact arithmetic the perfect unit period has amplitude 1 and RMS
    error 0: the division by zero gives SINAD = ENOB = +inf. *)
Lemma unit_period_reports_inf :
  ∃ rep d,
    eval_sine_quality unit_period = Ok (rep, d) ∧
    ampl rep = 1 ∧ rmserr rep = 0 ∧
    sinad rep = PosInf ∧ enob rep = PosInf.
Proof.
  destruct (eval_sine_quality_spec unit_period 4) as (rep & E & D);
    [apply valid_analysable, valid_unit_period|].
  destruct D as (_ & _ & _ & _ & _ & HA & _ & _ & Hr & Hs & He & _).
  rewrite unit_period_amplitude in HA.
  rewrite HA, (population_std_zero 4 _ unit_period_error) in Hr.
  rewrite HA, Hr, sinad_of_no_error in Hs by lra.
  rewrite Hs, enob_of_PosInf in He.
  exists rep, (data_after unit_period 4). by repeat split.
Qed.

(** C5, amended: with a zero RMS error the analysis still runs to
    completion, and SINAD and ENOB are what the unguarded division and
    logarithm give: +inf when the amplitude is positive, NaN when the
    amplitude is zero. *)
Theorem zero_rms_error_propagates a n :
  valid_sample_set a n →
  ∃ rep,
    eval_sine_quality a = Ok (rep, data_after a n) ∧
    0 <= ampl rep ∧
    (rmserr rep = 0 → 0 < ampl rep → sinad rep = PosInf ∧ enob rep = PosInf) ∧
    (rmserr rep = 0 → ampl rep = 0 → sinad rep = NaN ∧ enob rep = NaN).
Proof.
  intros Hv.
  destruct (eval_sine_quality_spec a n (valid_analysable a n Hv))
    as (rep & E & D).
  destruct D as (_ & _ & _ & _ & _ & HA & _ & _ & _ & Hs & He & _).
  exists rep. split; [exact E|].
  split; [rewrite HA; apply spec_amplitude_nonneg|]. split.
  - intros Hr Hpos. rewrite Hr, sinad_of_no_error in Hs by done.
    rewrite Hs, enob_of_PosInf in He. by split.
  - intros Hr Hz. rewrite Hr, Hz, sinad_of_nothing in Hs.
    rewrite Hs, enob_of_NaN in He. by split.
Qed.

Lemma zero_rms_error_propagates_witness :
  valid_sample_set silence 4 ∧
  ∃ rep,
    eval_sine_quality silence = Ok (rep, data_after silence 4) ∧
    rmserr rep = 0 ∧ ampl rep = 0 ∧ sinad rep = NaN ∧ enob rep = NaN.
Proof.
  assert (Hv : valid_sample_set silence 4) by solve_valid 2%nat.
  split; [exact Hv|].
  destruct (zero_rms_error_propagates silence 4 Hv) as (rep & E & _ & _ & Hnan).
  destruct (eval_sine_quality_describes silence 4 rep _
              (valid_analysable _ _ Hv) E) as [_ D].
  destruct D as (_ & _ & _ & _ & _ & HA & _ & _ & Hr & _).
  destruct (silent_record silence 4 silence_is_silent) as [HA0 Hr0].
  rewrite HA0 in HA. rewrite HA, Hr0 in Hr.
  exists rep. split; [exact E|]. split; [exact Hr|]. split; [exact HA|].
  exact (Hnan Hr HA).
Defined.

(** ** C6: offset, amplitude and phase *)



(** ** C7: the error sequence, its peak and its deviation *)

(** C7: with error[i] = sin_values[i] - amplitude * sin (theta_i), in which the
    recovered phase does not occur, the reported peak error is the greatest
    |error[i]| and the reported RMS error is the population standard
    deviation of the error sequence. *)
Theorem error_metrics a n :
  valid_sample_set a n →
  ∃ rep,
    eval_sine_quality a = Ok (rep, data_after a n) ∧
    let error := λ i,
      IZR (sin_values a i) - ampl rep * sin (2 * PI * INR i / INR n) in
    let mean := Rsum n error / INR n in
    (∀ i, (i < n)%nat → Rabs (error i) <= peakerr rep) ∧
    (∃ i, (i < n)%nat ∧ Rabs (error i) = peakerr rep) ∧
    rmserr rep = sqrt (Rsum n (λ i, (error i - mean) ^ 2) / INR n).
Proof.
  intros Hv.
  destruct (eval_sine_quality_spec a n (valid_analysable a n Hv))
    as (rep & E & D).
  destruct D as (_ & _ & _ & _ & _ & _ & _ & [Hub (i & Hi & Ei)] & Hr & _).
  exists rep. split; [exact E|]. cbv zeta. split; [|split].
  - intros k Hk. apply (Hub k). lia.
  - exists i. split; [lia|exact Ei].
  - exact Hr.
Qed.

Lemma error_metrics_witness :
  valid_sample_set unit_period 4 ∧
  ∃ rep,
    eval_sine_quality unit_period = Ok (rep, data_after unit_period 4) ∧
    rmserr rep = population_std 4 (spec_error unit_period 4 (ampl rep)).
Proof.
  assert (Hv : valid_sample_set unit_period 4) by solve_valid 2%nat.
  split; [exact Hv|].
  destruct (error_metrics unit_period 4 Hv) as (rep & E & _ & _ & H).
  exists rep. split; [exact E|exact H].
Defined.

(** ** C8: SINAD and ENOB *)




(** ** C9: SFDR *)



End figure_claims.

(** * The file reader *)

Lemma reading_bind_read {A B} (a : A) (f : A → reading B) : Read a ≫= f = f a.
Proof. reflexivity. Qed.

Lemma fits_int64_spec z : fits_int64 z = true ↔ Int64.in_range z.
Proof.
  unfold fits_int64, Int64.in_range.
  rewrite andb_true_iff, !Z.leb_le. done.
Qed.

Lemma length_flat_rows rows : length (flat_rows rows) = length rows * 2.
Proof.
  unfold flat_rows. induction rows as [|r rows IH]; [done|].
  rewrite fmap_cons. simpl. f_equal. f_equal. exact IH.
Qed.

Lemma flat_rows_snoc rows v0 v1 :
  flat_rows (rows ++ [(v0, v1)]) = flat_rows rows ++ [v0; v1].
Proof.
  unfold flat_rows. rewrite fmap_app, join_app. simpl. done.
Qed.

Lemma flat_rows_lookup rows i r :
  rows !! i = Some r →
  flat_rows rows !! (2 * i) = Some r.1 ∧ flat_rows rows !! (2 * i + 1) = Some r.2.
Proof.
  revert i. induction rows as [|r' rows IH]; intros i Hi; [done|].
  destruct i as [|i].
  - injection Hi as ->. by split.
  - apply IH in Hi as [H1 H2].
    replace (2 * S i) with (S (S (2 * i))) by lia.
    replace (S (S (2 * i)) + 1) with (S (S (2 * i + 1))) by lia.
    by split.
Qed.

Lemma flat_rows_fit rows : rows_fit rows → Forall Int64.in_range (flat_rows rows).
Proof.
  unfold rows_fit, flat_rows. induction 1 as [|r rows [H1 H2] _ IH]; simpl.
  - constructor.
  - apply Forall_cons. split; [done|]. apply Forall_cons. by split.
Qed.

(** growing the array keeps what it holds *)
Lemma np_resize_keeps a cap rows :
  length (buf a) = cap * 2 → 0 < cap → cap ≤ rows →
  shape (np_resize a rows) = [rows; 2] ∧
  length (buf (np_resize a rows)) = rows * 2 ∧
  take (cap * 2) (buf (np_resize a rows)) = buf a.
Proof.
  intros Hlen Hcap Hrows. unfold np_resize. simpl.
  destruct (buf a) as [|x b] eqn:Eb; [simpl in Hlen; lia|].
  rewrite <- Eb in *. clear Eb x b.
  split; [done|]. split; [by rewrite length_fmap, length_seq|].
  apply list_eq_same_length with (cap * 2).
  - done.
  - rewrite length_take, length_fmap, length_seq. lia.
  - intros i x y Hi Hx Hy.
    rewrite lookup_take_lt in Hx by done.
    rewrite list_lookup_fmap, lookup_seq_lt in Hx by lia.
    simpl in Hx. injection Hx as <-.
    rewrite Hlen, Nat.mod_small by done.
    by apply list_lookup_total_correct.
Qed.

Lemma take_store_pair (b : list Z) k v0 v1 :
  k * 2 + 1 < length b →
  take (S k * 2) (<[k * 2 + 1 := v1]> (<[k * 2 + 0 := v0]> b)) =
    take (k * 2) b ++ [v0; v1].
Proof.
  intros Hk. replace (k * 2 + 0) with (k * 2) by lia.
  replace (S k * 2) with (S (S (k * 2))) by lia.
  rewrite (take_S_r _ _ v1).
  2:{ replace (S (k * 2)) with (k * 2 + 1) by lia.
      apply list_lookup_insert_eq. rewrite length_insert. lia. }
  rewrite (take_S_r _ _ v0).
  2:{ rewrite list_lookup_insert_ne by lia.
      apply list_lookup_insert_eq. lia. }
  rewrite !take_insert_ge by lia.
  by rewrite <- app_assoc.
Qed.

Lemma setitem_inside data cap i j v :
  shape data = [cap; 2] → i < cap →
  setitem data i j v =
    if fits_int64 v then Read (NdArray [cap; 2] (<[i * 2 + j := v]> (buf data)))
    else ReadError (StoreOverflowError v).
Proof.
  intros Hs Hi. unfold setitem. rewrite Hs. change ([cap; 2] !!! 0) with cap.
  destruct (Nat.ltb_spec i cap); [|lia]. cbn [negb].
  by destruct (fits_int64 v).
Qed.

Section read_data_facts.
Variable str_split : string → list string.
Variable py_int : string → option Z.

Lemma reader_inv_start : reader_inv 0 (np_zeros 1024) [].
Proof.
  split; [done|]. exists 1024. repeat split; try done; lia.
Qed.

(** one line: the loop body stores what [parse_line] reads, and fails as
    [parse_line] fails *)
Lemma read_line_spec k data rows s :
  reader_inv k data rows →
  match (parse_line str_split py_int) s with
  | ReadError e => (read_line str_split py_int) (k, data) s = ReadError e
  | Read row =>
      ∃ data', (read_line str_split py_int) (k, data) s = Read (S k, data') ∧
               reader_inv (S k) data' (rows ++ [row])
  end.
Proof.
  intros (Hk & cap & Hshape & Hlen & Hle & Hcap & Htake).
  unfold read_line, parse_line. cbv zeta.
  set (grown := if k =? shape data !!! 0 then np_resize data (2 * k) else data).
  assert (Hg : ∃ cap', shape grown = [cap'; 2] ∧
                       length (buf grown) = cap' * 2 ∧ k < cap' ∧
                       take (k * 2) (buf grown) = flat_rows rows).
  { unfold grown. rewrite Hshape. change ([cap; 2] !!! 0) with cap.
    destruct (Nat.eqb_spec k cap) as [->|Hne].
    - destruct (np_resize_keeps data cap (2 * cap)) as (H1 & H2 & H3);
        [done|done|lia|].
      exists (2 * cap). split; [done|]. split; [done|]. split; [lia|].
      rewrite H3. rewrite <- Htake. symmetry. apply take_ge. lia.
    - exists cap. split; [done|]. split; [done|]. split; [lia|done]. }
  clearbody grown. destruct Hg as (cap' & Hs' & Hl' & Hlt & Ht').
  destruct (Nat.eqb_spec (length (str_split s)) 2) as [Hw|Hw]; [|done].
  rewrite !reading_bind_read. cbn [negb]. cbv iota. rewrite reading_bind_read.
  unfold parse_field, int_of.
  destruct (py_int (str_split s !!! 0)) as [v0|]; [|done].
  rewrite !reading_bind_read.
  rewrite (setitem_inside grown cap') by done.
  destruct (fits_int64 v0) eqn:F0; [|done].
  rewrite !reading_bind_read.
  destruct (py_int (str_split s !!! 1)) as [v1|]; [|done].
  rewrite !reading_bind_read.
  rewrite (setitem_inside _ cap') by done. cbn [buf].
  destruct (fits_int64 v1) eqn:F1; [|done].
  rewrite !reading_bind_read.
  eexists. split; [reflexivity|].
  split; [rewrite length_app; simpl; lia|].
  exists cap'. cbn [shape buf]. split; [done|].
  split; [by rewrite !length_insert|]. split; [lia|]. split; [lia|].
  rewrite take_store_pair by lia. by rewrite Ht', flat_rows_snoc.
Qed.

Lemma read_loop_spec lines k data rows :
  reader_inv k data rows →
  match (parse_lines str_split py_int) lines with
  | ReadError e => (read_loop str_split py_int) (k, data) lines = ReadError e
  | Read rows' =>
      ∃ data', (read_loop str_split py_int) (k, data) lines = Read (k + length rows', data') ∧
               reader_inv (k + length rows') data' (rows ++ rows')
  end.
Proof.
  revert k data rows. induction lines as [|s lines IH]; intros k data rows Hinv.
  - simpl. exists data. rewrite Nat.add_0_r, app_nil_r. by split.
  - cbn [parse_lines read_loop].
    pose proof (read_line_spec k data rows s Hinv) as Hline.
    destruct ((parse_line str_split py_int) s) as [row|e]; [|by rewrite Hline].
    destruct Hline as (data1 & E1 & Hinv1).
    rewrite E1, !reading_bind_read.
    specialize (IH (S k) data1 (rows ++ [row]) Hinv1).
    destruct ((parse_lines str_split py_int) lines) as [rows'|e]; [|done].
    destruct IH as (data' & E' & Hinv').
    rewrite reading_bind_read. exists data'. cbn [length].
    replace (k + S (length rows')) with (S k + length rows') by lia.
    split; [done|]. by rewrite <- app_assoc in Hinv'.
Qed.

(** the slice returned at the end is the table of the rows read *)
Lemma first_rows_table k data rows :
  reader_inv k data rows → first_rows data k = table rows.
Proof.
  intros (Hk & cap & Hshape & Hlen & Hle & Hcap & Htake).
  unfold first_rows, table. rewrite Hshape.
  change ([cap; 2] !!! 0) with cap.
  replace (k `min` cap) with k by lia. by rewrite Htake, Hk.
Qed.

Lemma read_data_parse lines :
  (read_data str_split py_int) lines = rows ← (parse_lines str_split py_int) lines; mret (table rows).
Proof.
  unfold read_data.
  pose proof (read_loop_spec lines 0 (np_zeros 1024) [] reader_inv_start) as H.
  destruct ((parse_lines str_split py_int) lines) as [rows|e]; [|by rewrite H].
  destruct H as (data' & E & Hinv). rewrite E, !reading_bind_read.
  cbn [mret reading_ret]. f_equal. by apply first_rows_table.
Qed.

Lemma parse_line_fits s row :
  (parse_line str_split py_int) s = Read row → Int64.in_range row.1 ∧ Int64.in_range row.2.
Proof.
  unfold parse_line, parse_field, int_of.
  destruct (length (str_split s) =? 2); [|done].
  destruct (py_int (str_split s !!! 0)) as [v0|]; [|done].
  rewrite reading_bind_read.
  destruct (fits_int64 v0) eqn:F0; [|done]. rewrite reading_bind_read.
  destruct (py_int (str_split s !!! 1)) as [v1|]; [|done].
  rewrite reading_bind_read.
  destruct (fits_int64 v1) eqn:F1; [|done]. rewrite reading_bind_read.
  intros [= <-]. split; by apply fits_int64_spec.
Qed.

Lemma parse_lines_rows lines rows :
  (parse_lines str_split py_int) lines = Read rows →
  length rows = length lines ∧ rows_fit rows.
Proof.
  revert rows. induction lines as [|s lines IH]; intros rows.
  - intros [= <-]. split; [done|constructor].
  - cbn [parse_lines]. destruct (parse_line str_split py_int s) as [row|e] eqn:Es; [|done].
    rewrite reading_bind_read.
    destruct ((parse_lines str_split py_int) lines) as [rows'|e]; [|done].
    rewrite reading_bind_read. intros [= <-].
    destruct (IH rows' eq_refl) as [Hl Hf]. split; [simpl; lia|].
    constructor; [by apply (parse_line_fits s)|done].
Qed.

Lemma table_wf rows : rows_fit rows → wf_array (table rows) (length rows).
Proof.
  intros Hf. split; [done|]. split.
  - cbn [table buf]. rewrite length_flat_rows. lia.
  - by apply flat_rows_fit.
Qed.

End read_data_facts.

Section read_data_properties.
Variable str_split : string → list string.
Variable py_int : string → option Z.

Lemma parse_lines_Forall2 lines rows :
  parse_lines str_split py_int lines = Read rows ↔
  Forall2 (λ s r, parse_line str_split py_int s = Read r) lines rows.
Proof.
  revert rows. induction lines as [|s lines IH]; intros rows.
  - split.
    + intros [= <-]. constructor.
    + intros H. by apply Forall2_nil_inv_l in H as ->.
  - cbn [parse_lines]. split.
    + destruct (parse_line str_split py_int s) as [row|e] eqn:Es; [|done].
      rewrite reading_bind_read.
      destruct (parse_lines str_split py_int lines) as [rows'|e] eqn:El;
        [|done].
      rewrite reading_bind_read. intros [= <-].
      constructor; [done|]. by apply IH.
    + intros H. apply Forall2_cons_inv_l in H as (r & rows' & Hr & Hrows & ->).
      rewrite Hr, reading_bind_read.
      apply IH in Hrows. by rewrite Hrows.
Qed.

(** the errors that [parse_lines] can give *)
Lemma parse_lines_errors lines e :
  parse_lines str_split py_int lines = ReadError e →
  e = LineAssertionError ∨ (∃ w, e = IntValueError w) ∨
  (∃ z, e = StoreOverflowError z ∧ ¬ Int64.in_range z).
Proof.
  assert (Hfield : ∀ w e', parse_field py_int w = ReadError e' →
            (∃ w', e' = IntValueError w') ∨
            (∃ z, e' = StoreOverflowError z ∧ ¬ Int64.in_range z)).
  { intros w e'. unfold parse_field, int_of.
    destruct (py_int w) as [v|]; [|intros [= <-]; left; by eexists].
    rewrite reading_bind_read. destruct (fits_int64 v) eqn:F; [done|].
    intros [= <-]. right. exists v. split; [done|].
    intros H. apply fits_int64_spec in H. congruence. }
  induction lines as [|s lines IH]; [done|]. cbn [parse_lines].
  destruct (parse_line str_split py_int s) as [row|e1] eqn:Es.
  - rewrite reading_bind_read.
    destruct (parse_lines str_split py_int lines) as [rows|e2]; [done|].
    intros [= <-]. by apply IH.
  - intros [= <-]. revert Es. unfold parse_line.
    destruct (length (str_split s) =? 2); [|intros [= <-]; by left].
    destruct (parse_field py_int (str_split s !!! 0)) as [v0|e0] eqn:E0.
    + rewrite reading_bind_read.
      destruct (parse_field py_int (str_split s !!! 1)) as [v1|e1'] eqn:E1;
        [done|].
      intros [= <-]. right. by apply (Hfield _ _ E1).
    + intros [= <-]. right. by apply (Hfield _ _ E0).
Qed.

Lemma table_values rows i r :
  rows !! i = Some r →
  sin_values (table rows) i = r.1 ∧ cos_values (table rows) i = r.2.
Proof.
  intros Hi. destruct (flat_rows_lookup rows i r Hi) as [H1 H2].
  unfold sin_values, cos_values. cbn [table buf].
  split; by apply list_lookup_total_correct.
Qed.

(** an array of two columns is the table of its rows *)
Lemma table_of_array data n :
  shape data = [n; 2] → length (buf data) = n * 2 →
  data = table ((λ i, (sin_values data i, cos_values data i)) <$> seq 0 n).
Proof.
  destruct data as [sh b]. cbn [shape buf]. intros -> Hlen.
  unfold table. rewrite length_fmap, length_seq. f_equal.
  apply list_eq_same_length with (n * 2); [|done|].
  - by rewrite length_flat_rows, length_fmap, length_seq.
  - intros j x y Hj Hx Hy.
    assert (Hrow : ((λ i, (sin_values (NdArray [n; 2] b) i,
                           cos_values (NdArray [n; 2] b) i)) <$> seq 0 n)
                     !! (j / 2) =
                   Some (b !!! (2 * (j / 2)), b !!! (2 * (j / 2) + 1))).
    { rewrite list_lookup_fmap, lookup_seq_lt by lia. done. }
    apply flat_rows_lookup in Hrow as [H1 H2]. cbn [fst snd] in H1, H2.
    apply list_lookup_total_correct in Hx.
    destruct (Nat.eq_dec (j mod 2) 0) as [E|E].
    + replace (2 * (j / 2)) with j in H1 by lia. congruence.
    + replace (2 * (j / 2) + 1) with j in H2 by lia. congruence.
Qed.

(** X1: [read_data] succeeds exactly when every line splits into two
    fields that [int] accepts and that fit an int64; the array it returns
    has one row per line, holding the two integers of that line, whatever
    the number of lines and of reallocations. *)
Theorem read_data_rows lines data :
  read_data str_split py_int lines = Read data ↔
  shape data = [length lines; 2] ∧
  length (buf data) = length lines * 2 ∧
  ∀ i s, lines !! i = Some s →
    parse_line str_split py_int s =
      Read (sin_values data i, cos_values data i).
Proof.
  rewrite read_data_parse. split.
  - destruct (parse_lines str_split py_int lines) as [rows|e] eqn:E; [|done].
    rewrite reading_bind_read. intros [= <-].
    destruct (parse_lines_rows _ _ _ _ E) as [Hlen _].
    apply parse_lines_Forall2 in E.
    split; [cbn [table shape]; by rewrite Hlen|].
    split; [cbn [table buf]; by rewrite length_flat_rows, Hlen|].
    intros i s Hs.
    destruct (Forall2_lookup_l _ _ _ _ _ E Hs) as (r & Hr & Hp).
    destruct (table_values rows i r Hr) as [-> ->]. by destruct r.
  - intros (Hshape & Hlen & Hrows).
    rewrite (table_of_array data (length lines) Hshape Hlen).
    set (rows := (λ i, (sin_values data i, cos_values data i)) <$>
                 seq 0 (length lines)).
    assert (E : parse_lines str_split py_int lines = Read rows).
    { apply parse_lines_Forall2. apply Forall2_same_length_lookup.
      split; [unfold rows; by rewrite length_fmap, length_seq|].
      intros i s r Hs Hr. unfold rows in Hr.
      rewrite list_lookup_fmap, lookup_seq_lt in Hr
        by (by apply lookup_lt_Some in Hs).
      injection Hr as <-. by apply Hrows. }
    by rewrite E.
Qed.

(** X2: whatever [read_data] returns is an int64 array of shape (N, 2)
    with N the number of lines, so [main] never takes its
    "Expected array of shape (N, 2)" exit on it. *)
Theorem read_data_well_formed lines data :
  read_data str_split py_int lines = Read data →
  wf_array data (length lines) ∧ main data ≠ SysExit 1 bad_shape_msg.
Proof.
  rewrite read_data_parse.
  destruct (parse_lines str_split py_int lines) as [rows|e] eqn:E; [|done].
  rewrite reading_bind_read. intros [= <-].
  destruct (parse_lines_rows _ _ _ _ E) as [Hlen Hfit].
  assert (Hwf : wf_array (table rows) (length lines)).
  { rewrite <- Hlen. by apply table_wf. }
  split; [done|]. rewrite (main_gate _ _ Hwf).
  destruct (bad_length (length lines)); [done|].
  destruct (eval_sine_quality (table rows)) as [[rep d]|e]; done.
Qed.

(** X3: [read_data] never raises the ValueError "Expecting two columns in
    file", which the assertion before it pre-empts, and never stores
    outside its array; the only errors are the failed assertion, a literal
    that [int] rejects, and an integer outside int64. *)
Theorem read_data_errors lines e :
  read_data str_split py_int lines = ReadError e →
  e ≠ TwoColumnsValueError ∧ e ≠ StoreIndexError ∧
  (e = LineAssertionError ∨ (∃ w, e = IntValueError w) ∨
   (∃ z, e = StoreOverflowError z ∧ ¬ Int64.in_range z)).
Proof.
  rewrite read_data_parse.
  destruct (parse_lines str_split py_int lines) as [rows|e'] eqn:E; [done|].
  intros [= <-]. apply parse_lines_errors in E as H.
  split; [|split; [|done]].
  - destruct H as [->|[[w ->]|(z & -> & _)]]; done.
  - destruct H as [->|[[w ->]|(z & -> & _)]]; done.
Qed.

(** X4: the first line that does not parse decides the error; the lines
    after it are not looked at. *)
Theorem read_data_first_bad_line good bad rest e :
  Forall (λ s, ∃ r, parse_line str_split py_int s = Read r) good →
  parse_line str_split py_int bad = ReadError e →
  read_data str_split py_int (good ++ bad :: rest) = ReadError e.
Proof.
  intros Hgood Hbad. rewrite read_data_parse.
  assert (H : parse_lines str_split py_int (good ++ bad :: rest) = ReadError e);
    [|by rewrite H].
  induction Hgood as [|s good [r Hr] _ IH]; cbn [app parse_lines].
  - by rewrite Hbad.
  - by rewrite Hr, reading_bind_read, IH.
Qed.

(** a blank line splits into no field *)
Lemma parse_line_no_fields s :
  str_split s = [] → parse_line str_split py_int s = ReadError LineAssertionError.
Proof. intros H. unfold parse_line. by rewrite H. Qed.

(** X5: from the command line, on a file whose N lines all parse, [main]
    exits with the record-length error when N < 4 or N is not a power of
    two, and otherwise prints the report of the rows of the file. *)
Theorem main_cli_on_parsed_file prog fname fs lines rows :
  fs fname = Some lines →
  parse_lines str_split py_int lines = Read rows →
  let n := length lines in
  (n < 4 ∨ ¬ (∃ k, n = 2 ^ k) →
     main_cli str_split py_int [prog; fname] fs = Ran ShapeError) ∧
  (4 ≤ n ∧ (∃ k, n = 2 ^ k) →
     ∃ rep,
       main_cli str_split py_int [prog; fname] fs =
         Ran (Finished rep (data_after (table rows) n)) ∧
       describes (table rows) n rep).
Proof.
  intros Hfs E n. unfold main_cli. change ([prog; fname] !!! 1) with fname.
  change (length [prog; fname] =? 2) with true. cbn [negb]. rewrite Hfs.
  rewrite read_data_parse, E, reading_bind_read. cbn [mret reading_ret].
  destruct (parse_lines_rows _ _ _ _ E) as [Hlen Hfit].
  assert (Hwf : wf_array (table rows) n).
  { unfold n. rewrite <- Hlen. by apply table_wf. }
  rewrite (main_gate _ _ Hwf). split.
  - intros H. apply bad_length_true in H. by rewrite H.
  - intros H. pose proof (proj2 (bad_length_false n) H) as Hb. rewrite Hb.
    destruct (eval_sine_quality_spec (table rows) n) as (rep & Erep & D).
    { apply valid_analysable. by split. }
    exists rep. by rewrite Erep.
Qed.

End read_data_properties.

Lemma read_unit_period_file :
  read_data ascii_split decimal_int unit_period_file = Read unit_period.
Proof. vm_compute. reflexivity. Qed.

Lemma read_data_well_formed_witness :
  read_data ascii_split decimal_int unit_period_file = Read unit_period ∧
  wf_array unit_period 4 ∧ main unit_period ≠ SysExit 1 bad_shape_msg.
Proof.
  split; [vm_compute; reflexivity|].
  apply (read_data_well_formed ascii_split decimal_int unit_period_file).
  vm_compute. reflexivity.
Defined.

Lemma read_data_errors_witness :
  read_data ascii_split decimal_int broken_file = ReadError LineAssertionError ∧
  LineAssertionError ≠ TwoColumnsValueError.
Proof.
  assert (E : read_data ascii_split decimal_int broken_file =
              ReadError LineAssertionError) by (vm_compute; reflexivity).
  split; [exact E|].
  exact (proj1 (read_data_errors ascii_split decimal_int broken_file _ E)).
Defined.

Lemma read_data_first_bad_line_witness :
  read_data ascii_split decimal_int broken_file = ReadError LineAssertionError.
Proof.
  apply (read_data_first_bad_line ascii_split decimal_int
           ["0 1"; "1 0"]%string ""%string ["-1 0"]%string).
  - repeat (apply List.Forall_cons; [eexists; vm_compute; reflexivity|]).
    apply List.Forall_nil.
  - vm_compute. reflexivity.
Defined.

Lemma main_cli_on_parsed_file_witness :
  ∃ rep,
    main_cli ascii_split decimal_int ["eval_sine_quality.py"; "sine.dat"]%string
      (λ _, Some unit_period_file) =
      Ran (Finished rep (data_after unit_period 4)) ∧
    describes unit_period 4 rep.
Proof.
  assert (E : parse_lines ascii_split decimal_int unit_period_file =
              Read [(0, 1); (1, 0); (0, -1); (-1, 0)]%Z)
    by (vm_compute; reflexivity).
  destruct (main_cli_on_parsed_file ascii_split decimal_int
              "eval_sine_quality.py"%string "sine.dat"%string
              (λ _, Some unit_period_file) unit_period_file _ eq_refl E)
    as [_ H].
  apply H. split; [simpl; lia|]. exists 2. reflexivity.
Defined.

(** * More on [eval_sine_quality] *)

(** on any array of shape (n, 2) that passes the third assertion, whatever
    its entries *)
Lemma eval_sine_quality_runs a n :
  shape a = [n; 2] → length (buf a) = 2 * n → 4 ≤ n → n mod 4 = 0 →
  ∃ rep, eval_sine_quality a = Ok (rep, data_after a n) ∧ describes a n rep.
Proof.
  intros Hshape Hlen Hn Hmod.
  destruct (structural_checks_spec a n Hlen Hn Hmod)
    as (chk & Echk & H1 & H2 & H3 & H4).
  destruct (figures_spec a n chk Hn) as (peak & tspur & Efig & Hpeak & Hspur).
  cbv zeta in Efig, Hpeak.
  eexists. split.
  - unfold eval_sine_quality. rewrite Hshape.
    change ([n; 2] !!! 1) with 2. change ([n; 2] !!! 0) with n.
    change (length [n; 2] =? 2) with true. change (2 =? 2) with true.
    replace ((4 <=? n) && (n mod 4 =? 0)) with true.
    2:{ symmetry. apply andb_true_iff. split.
        - by apply Nat.leb_le.
        - by apply Nat.eqb_eq. }
    unfold assert. rewrite !result_bind_ok, Echk, result_bind_ok.
    cbv beta iota. rewrite Efig, result_bind_ok.
    unfold data_after. rewrite Hshape. reflexivity.
  - unfold describes. cbn [checks offs ampl phase peakerr rmserr sinad enob sfdr].
    repeat (split; [done|]). by exists tspur.
Qed.

(** X6: on an array whose buffer matches its shape the only exception that
    [eval_sine_quality] can raise is AssertionError, and it raises it
    exactly when the shape is not (N, 2) with N ≥ 4 a multiple of 4: the
    ValueError of a shape mismatch or of an empty extremum and the
    IndexError of bin 1 are never reached. *)
Theorem eval_sine_quality_raises_only_assertion a :
  (∀ n, shape a = [n; 2] → length (buf a) = 2 * n) →
  (eval_sine_quality a = Raise AssertionError ∧
   ¬ ∃ n, shape a = [n; 2] ∧ 4 ≤ n ∧ n mod 4 = 0) ∨
  (∃ n rep, shape a = [n; 2] ∧ 4 ≤ n ∧ n mod 4 = 0 ∧
            eval_sine_quality a = Ok (rep, data_after a n)).
Proof.
  intros Hbuf.
  destruct (shape a) as [|n [|m [|x sh]]] eqn:Hs.
  - left. split; [by unfold eval_sine_quality; rewrite Hs|].
    by intros (n & Hn & _).
  - left. split; [by unfold eval_sine_quality; rewrite Hs|].
    by intros (n' & Hn & _).
  - destruct (decide (m = 2)) as [->|Hm].
    + destruct (decide (4 ≤ n ∧ n mod 4 = 0)) as [[Hn Hmod]|Hno].
      * right.
        destruct (eval_sine_quality_runs a n Hs (Hbuf n eq_refl) Hn Hmod)
          as (rep & E & _).
        by exists n, rep.
      * left. split.
        -- unfold eval_sine_quality. rewrite Hs.
           change ([n; 2] !!! 1) with 2. change ([n; 2] !!! 0) with n.
           change (length [n; 2] =? 2) with true. change (2 =? 2) with true.
           replace ((4 <=? n) && (n mod 4 =? 0)) with false; [done|].
           symmetry. apply andb_false_iff.
           destruct (Nat.leb_spec 4 n); [right|by left].
           apply Nat.eqb_neq. intros E. apply Hno. by split.
        -- intros (n' & [= <-] & Hn & Hmod). apply Hno. by split.
    + left. split.
      * unfold eval_sine_quality. rewrite Hs.
        change ([n; m] !!! 1) with m.
        change (length [n; m] =? 2) with true.
        replace (m =? 2) with false by (symmetry; by apply Nat.eqb_neq).
        done.
      * intros (n' & [= _ ->] & _). done.
  - left. split; [by unfold eval_sine_quality; rewrite Hs|].
    by intros (n' & Hn & _).
Qed.

Lemma eval_sine_quality_raises_only_assertion_witness :
  eval_sine_quality (NdArray [8] (replicate 8 0%Z)) = Raise AssertionError.
Proof.
  destruct (eval_sine_quality_raises_only_assertion
              (NdArray [8] (replicate 8 0%Z))) as [[E _]|(n & rep & Hs & _)].
  - intros n Hs. discriminate Hs.
  - exact E.
  - discriminate Hs.
Defined.

Lemma data_after_wf a n : analysable a n → wf_array (data_after a n) n.
Proof.
  intros ((Hshape & Hlen & Hall) & Hn & Hmod).
  split; [done|]. split.
  - cbn [data_after buf]. rewrite (length_buf_after a n). done.
  - cbn [data_after buf]. apply Forall_lookup. intros j x Hx.
    pose proof (lookup_lt_Some _ _ _ Hx) as Hj.
    apply list_lookup_total_correct in Hx as <-.
    rewrite (length_buf_after a n), Hlen in Hj.
    destruct (Nat.eq_dec (j mod 2) 0) as [E|E].
    + replace j with (2 * (j / 2)) by lia.
      rewrite (buf_after_sin a n) by lia.
      apply (sin_values_range a n); [done|lia].
    + replace j with (2 * (j / 2) + 1) by lia.
      rewrite (buf_after_cos a n Hlen Hn Hmod) by lia.
      apply Int64Facts.wrap64_range.
Qed.

(** X7: a call on an int64 array of shape (N, 2), N ≥ 4 a multiple of 4,
    leaves behind an int64 array of the same shape whose sine column is
    unchanged and whose cosine column holds the int64 differences
    cos[i] - sin[s(i)] of the quarter-period check. *)
Theorem eval_sine_quality_effect a n rep d :
  analysable a n →
  eval_sine_quality a = Ok (rep, d) →
  analysable d n ∧
  ∀ i, i < n →
    sin_values d i = sin_values a i ∧ cos_values d i = quarter_diff a n i.
Proof.
  intros Han E.
  destruct (eval_sine_quality_describes a n rep d Han E) as [-> _].
  split.
  - destruct Han as (Hwf & Hn & Hmod).
    split; [by apply data_after_wf|done].
  - by apply eval_sine_quality_frame.
Qed.

Lemma eval_sine_quality_effect_witness :
  analysable unit_period 4 ∧
  ∃ rep d,
    eval_sine_quality unit_period = Ok (rep, d) ∧
    analysable d 4 ∧
    cos_values d 0 = quarter_diff unit_period 4 0.
Proof.
  assert (Han : analysable unit_period 4).
  { split; [solve_wf|]. split; [lia|reflexivity]. }
  split; [exact Han|].
  destruct (eval_sine_quality_spec unit_period 4 Han) as (rep & E & _).
  exists rep, (data_after unit_period 4). split; [exact E|].
  destruct (eval_sine_quality_effect unit_period 4 rep _ Han E) as [Hd Hv].
  split; [exact Hd|]. exact (proj2 (Hv 0 ltac:(lia))).
Defined.

Section second_call.
Local Open Scope R_scope.

Lemma is_Rmax_over_unique lo len f m m' :
  is_Rmax_over lo len f m → is_Rmax_over lo len f m' → m = m'.
Proof.
  intros [H (i & Hi & Ei)] [H' (j & Hj & Ej)].
  specialize (H j Hj). specialize (H' i Hi). lra.
Qed.

Lemma is_Rmax_over_ext lo len (f g : nat → R) m :
  (∀ i, (lo ≤ i < lo + len)%nat → f i = g i) →
  is_Rmax_over lo len f m → is_Rmax_over lo len g m.
Proof.
  intros E [H (i & Hi & Ei)]. split.
  - intros k Hk. rewrite <- E by done. by apply H.
  - exists i. split; [done|]. by rewrite <- E.
Qed.

(** the figures depend on the sine channel only *)
Lemma figures_depend_on_sine a b n :
  (∀ i, (i < n)%nat → sin_values b i = sin_values a i) →
  spec_offset b n = spec_offset a n ∧
  spec_amplitude b n = spec_amplitude a n ∧
  spec_phase b n = spec_phase a n ∧
  (∀ A i, (i < n)%nat → spec_error b n A i = spec_error a n A i) ∧
  (∀ k, bin_magnitude b n k = bin_magnitude a n k).
Proof.
  intros Hs.
  assert (Hf : ∀ i, (i < n)%nat → fsin b i = fsin a i).
  { intros i Hi. unfold fsin. by rewrite Hs. }
  assert (Hsin : spec_asin b n = spec_asin a n).
  { unfold spec_asin. f_equal. apply Rsum_ext. intros i Hi.
    simpl. by rewrite Hf. }
  assert (Hcos : spec_acos b n = spec_acos a n).
  { unfold spec_acos. f_equal. apply Rsum_ext. intros i Hi.
    simpl. by rewrite Hf. }
  split; [|split; [|split; [|split]]].
  - unfold spec_offset, mean_of. f_equal. by apply Rsum_ext.
  - unfold spec_amplitude. by rewrite Hsin, Hcos.
  - unfold spec_phase. by rewrite Hsin, Hcos.
  - intros A i Hi. unfold spec_error. by rewrite Hf.
  - intros k. unfold bin_magnitude, dft_bin. f_equal. f_equal.
    + apply Rsum_ext. intros i Hi. simpl. by rewrite Hf.
    + f_equal. apply Rsum_ext. intros i Hi. simpl. by rewrite Hf.
Qed.

Lemma population_std_ext n (e e' : nat → R) :
  (∀ i, (i < n)%nat → e i = e' i) → population_std n e = population_std n e'.
Proof.
  intros E. unfold population_std.
  assert (Hm : mean_of n e = mean_of n e').
  { unfold mean_of. f_equal. by apply Rsum_ext. }
  rewrite Hm. f_equal. unfold mean_of. f_equal.
  apply Rsum_ext. intros i Hi. simpl. by rewrite E.
Qed.

(** X8: a second call on the array that a first call has left behind
    completes and agrees with the first on every figure except the
    cosine-shift range: the half-period range, offset, amplitude, phase,
    peak and RMS error, SINAD, ENOB and SFDR are the same. *)
Theorem second_call_differs_only_in_cosine_check a n rep d :
  analysable a n →
  eval_sine_quality a = Ok (rep, d) →
  ∃ rep' d',
    eval_sine_quality d = Ok (rep', d') ∧
    half_tmin (checks rep') = half_tmin (checks rep) ∧
    half_tmax (checks rep') = half_tmax (checks rep) ∧
    offs rep' = offs rep ∧ ampl rep' = ampl rep ∧ phase rep' = phase rep ∧
    peakerr rep' = peakerr rep ∧ rmserr rep' = rmserr rep ∧
    sinad rep' = sinad rep ∧ enob rep' = enob rep ∧ sfdr rep' = sfdr rep.
Proof.
  intros Han E.
  destruct (eval_sine_quality_describes a n rep d Han E) as [-> D].
  assert (Han' : analysable (data_after a n) n).
  { destruct Han as (Hwf & Hn & Hmod).
    split; [by apply data_after_wf|done]. }
  destruct (eval_sine_quality_spec _ n Han') as (rep' & E' & D').
  exists rep', (data_after (data_after a n) n). split; [exact E'|].
  assert (Hs : ∀ i, (i < n)%nat →
            sin_values (data_after a n) i = sin_values a i).
  { intros i Hi. by apply eval_sine_quality_frame. }
  destruct (figures_depend_on_sine a (data_after a n) n Hs)
    as (Fo & Fa & Fp & Fe & Fb).
  destruct Han as (_ & Hn & Hmod).
  destruct D as (_ & _ & L3 & L4 & Ho & HA & Hp & Hpk & Hr & Hsn & Hen & Hsf).
  destruct D' as (_ & _ & L3' & L4' & Ho' & HA' & Hp' & Hpk' & Hr' & Hsn' &
                   Hen' & Hsf').
  assert (Hhalf : ∀ i, (i < n / 2)%nat →
            half_sum (data_after a n) n i = half_sum a n i).
  { intros i Hi. unfold half_sum. rewrite !Hs by lia. done. }
  assert (EA : ampl rep' = ampl rep) by (by rewrite HA', HA, Fa).
  assert (ER : rmserr rep' = rmserr rep).
  { rewrite Hr', Hr, EA. apply population_std_ext. intros i Hi. by apply Fe. }
  assert (ES : sinad rep' = sinad rep) by (by rewrite Hsn', Hsn, EA, ER).
  split.
  { apply (is_min_over_unique (n / 2) (half_sum a n)); [|done].
    by apply (is_min_over_ext _ (half_sum (data_after a n) n)). }
  split.
  { apply (is_max_over_unique (n / 2) (half_sum a n)); [|done].
    by apply (is_max_over_ext _ (half_sum (data_after a n) n)). }
  split; [by rewrite Ho', Ho, Fo|]. split; [done|].
  split; [by rewrite Hp', Hp, Fp|].
  split.
  { apply (is_Rmax_over_unique 0 n
             (λ i, Rabs (spec_error a n (ampl rep) i))); [|done].
    apply (is_Rmax_over_ext _ _
             (λ i, Rabs (spec_error (data_after a n) n (ampl rep') i)));
      [|done].
    intros i Hi. simpl. rewrite EA. f_equal. apply Fe. lia. }
  split; [done|]. split; [done|]. split; [by rewrite Hen', Hen, ES|].
  destruct Hsf as (ts & Hts & ->). destruct Hsf' as (ts' & Hts' & ->).
  rewrite Fb. do 2 f_equal.
  apply (is_Rmax_over_unique 2 (n / 2 - 1) (bin_magnitude a n)); [|done].
  apply (is_Rmax_over_ext _ _ (bin_magnitude (data_after a n) n)); [|done].
  intros k _. apply Fb.
Qed.

Lemma second_call_differs_only_in_cosine_check_witness :
  analysable unit_period 4 ∧
  ∃ rep rep' d',
    eval_sine_quality unit_period = Ok (rep, unit_period_after) ∧
    eval_sine_quality unit_period_after = Ok (rep', d') ∧
    sfdr rep' = sfdr rep ∧ sinad rep' = sinad rep.
Proof.
  assert (Han : analysable unit_period 4).
  { split; [solve_wf|]. split; [lia|reflexivity]. }
  split; [exact Han|].
  destruct (eval_sine_quality_spec unit_period 4 Han) as (rep & E & _).
  destruct (second_call_differs_only_in_cosine_check unit_period 4 rep _ Han E)
    as (rep' & d' & E' & H).
  exists rep, rep', d'. split; [exact E|]. split; [exact E'|].
  destruct H as (_ & _ & _ & _ & _ & _ & _ & Hs & _ & Hf).
  split; [exact Hf|exact Hs].
Defined.

End second_call.

Section report_invariants.
Local Open Scope R_scope.

(** [numpy.arctan2] returns an angle in (-pi, pi] *)
Lemma np_arctan2_range y x : - PI < np_arctan2 y x <= PI.
Proof.
  pose proof PI_RGT_0 as Hpi. unfold np_arctan2.
  destruct (Rlt_dec 0 x) as [Hx|Hx].
  - pose proof (atan_bound (y / x)). lra.
  - destruct (Rlt_dec x 0) as [Hx'|Hx'].
    + pose proof (atan_bound (y / x)) as Hb.
      destruct (Rlt_dec y 0) as [Hy|Hy].
      * assert (0 < y / x).
        { replace (y / x) with ((- y) / (- x)) by (field; lra).
          apply Rdiv_lt_0_compat; lra. }
        pose proof (atan_increasing 0 (y / x) ltac:(done)) as Hi.
        rewrite atan_0 in Hi. lra.
      * assert (Hq : y / x <= 0).
        { replace (y / x) with (- (y * / (- x))) by (field; lra).
          assert (0 <= y * / (- x)); [|lra].
          apply Rle_mult_inv_pos; lra. }
        assert (atan (y / x) <= 0); [|lra].
        destruct Hq as [Hq|Hq].
        -- pose proof (atan_increasing (y / x) 0 Hq) as Hi.
           rewrite atan_0 in Hi. lra.
        -- rewrite Hq, atan_0. lra.
    + destruct (Rlt_dec 0 y); [lra|]. destruct (Rlt_dec y 0); lra.
Qed.

Lemma Rsum_plus n (f g : nat → R) :
  Rsum n (λ i, f i + g i) = Rsum n f + Rsum n g.
Proof. induction n as [|n IH]; simpl; [lra|]. rewrite IH. lra. Qed.

Lemma Rsum_scal n c (f : nat → R) : Rsum n (λ i, c * f i) = c * Rsum n f.
Proof. induction n as [|n IH]; simpl; [lra|]. rewrite IH. lra. Qed.

Lemma Rsum_const n c : Rsum n (λ _, c) = INR n * c.
Proof.
  induction n as [|n IH]; [simpl; lra|].
  cbn [Rsum]. rewrite IH, S_INR. lra.
Qed.

Lemma Rsum_le n (f g : nat → R) :
  (∀ i, (i < n)%nat → f i <= g i) → Rsum n f <= Rsum n g.
Proof.
  induction n as [|n IH]; intros H; simpl; [lra|].
  specialize (H n ltac:(lia)) as Hn.
  assert (Rsum n f <= Rsum n g) by (apply IH; intros; apply H; lia). lra.
Qed.


(** the squared deviations sum to the squares less n times the squared
    mean *)
Lemma Rsum_deviation n (e : nat → R) :
  (0 < n)%nat →
  Rsum n (λ i, (e i - mean_of n e) ^ 2) =
    Rsum n (λ i, e i ^ 2) - INR n * mean_of n e ^ 2.
Proof.
  intros Hn. set (mu := mean_of n e).
  rewrite (Rsum_ext n _ (λ i, e i ^ 2 + ((- 2 * mu) * e i + mu ^ 2)))
    by (intros; simpl; ring).
  rewrite Rsum_plus, Rsum_plus, Rsum_scal, Rsum_const.
  assert (HS : Rsum n e = INR n * mu).
  { unfold mu, mean_of. field. apply not_0_INR. lia. }
  rewrite HS. ring.
Qed.

(** the deviation of a sequence is at most its greatest magnitude *)
Lemma population_std_le_peak n (e : nat → R) P :
  (0 < n)%nat → (∀ i, (i < n)%nat → Rabs (e i) <= P) →
  population_std n e <= P.
Proof.
  intros Hn HP.
  assert (HP0 : 0 <= P).
  { specialize (HP 0%nat Hn). pose proof (Rabs_pos (e 0%nat)). lra. }
  assert (HN : 0 < INR n) by (apply lt_0_INR; lia).
  unfold population_std. rewrite <- (sqrt_pow2 P HP0).
  apply sqrt_le_1_alt. unfold mean_of at 1.
  rewrite Rsum_deviation by done.
  assert (Hsq : Rsum n (λ i, e i ^ 2) <= INR n * P ^ 2).
  { rewrite <- Rsum_const. apply Rsum_le. intros i Hi. cbv beta.
    rewrite <- (pow2_abs (e i)). apply pow_incr. split; [apply Rabs_pos|].
    by apply HP. }
  assert (Hmu : 0 <= INR n * mean_of n e ^ 2).
  { apply Rmult_le_pos; [lra|apply pow2_ge_0]. }
  apply (Rmult_le_reg_l (INR n)); [done|].
  replace (INR n * ((Rsum n (λ i, e i ^ 2) - INR n * mean_of n e ^ 2) / INR n))
    with (Rsum n (λ i, e i ^ 2) - INR n * mean_of n e ^ 2) by (field; lra).
  lra.
Qed.

(** X9: every report satisfies: each reported minimum is at most its
    maximum, the four integers are int64 values, amplitude, peak error and
    RMS error are not negative, and the phase lies in (-pi, pi]. *)
Theorem report_invariants a n rep d :
  analysable a n →
  eval_sine_quality a = Ok (rep, d) →
  (cos_tmin (checks rep) ≤ cos_tmax (checks rep))%Z ∧
  (half_tmin (checks rep) ≤ half_tmax (checks rep))%Z ∧
  Int64.in_range (cos_tmin (checks rep)) ∧
  Int64.in_range (cos_tmax (checks rep)) ∧
  Int64.in_range (half_tmin (checks rep)) ∧
  Int64.in_range (half_tmax (checks rep)) ∧
  0 <= ampl rep ∧ 0 <= peakerr rep ∧ 0 <= rmserr rep ∧
  - PI < phase rep <= PI.
Proof.
  intros Han E.
  destruct (eval_sine_quality_describes a n rep d Han E) as [_ D].
  destruct D as ([L1 (i1 & _ & E1)] & [U2 (i2 & Hi2 & E2)] &
                 [L3 (i3 & _ & E3)] & [U4 (i4 & Hi4 & E4)] &
                 _ & HA & Hp & [_ (i5 & _ & E5)] & Hr & _).
  split; [rewrite <- E2; by apply L1|].
  split; [rewrite <- E4; by apply L3|].
  split; [rewrite <- E1; apply Int64Facts.wrap64_range|].
  split; [rewrite <- E2; apply Int64Facts.wrap64_range|].
  split; [rewrite <- E3; apply Int64Facts.wrap64_range|].
  split; [rewrite <- E4; apply Int64Facts.wrap64_range|].
  split; [rewrite HA; apply sqrt_pos|].
  split; [rewrite <- E5; apply Rabs_pos|].
  split; [rewrite Hr; apply sqrt_pos|].
  rewrite Hp. apply np_arctan2_range.
Qed.

Lemma report_invariants_witness :
  analysable unit_period 4 ∧
  ∃ rep,
    eval_sine_quality unit_period = Ok (rep, unit_period_after) ∧
    0 <= rmserr rep ∧ - PI < phase rep <= PI.
Proof.
  assert (Han : analysable unit_period 4).
  { split; [solve_wf|]. split; [lia|reflexivity]. }
  split; [exact Han|].
  destruct (eval_sine_quality_spec unit_period 4 Han) as (rep & E & _).
  exists rep. split; [exact E|].
  destruct (report_invariants unit_period 4 rep _ Han E)
    as (_ & _ & _ & _ & _ & _ & _ & _ & Hr & Hp).
  split; [exact Hr|exact Hp].
Defined.

(** X10: the reported RMS error never exceeds the reported peak error. *)
Theorem rms_error_at_most_peak_error a n rep d :
  analysable a n →
  eval_sine_quality a = Ok (rep, d) →
  rmserr rep <= peakerr rep.
Proof.
  intros Han E.
  destruct (eval_sine_quality_describes a n rep d Han E) as [_ D].
  destruct Han as (_ & Hn & _).
  destruct D as (_ & _ & _ & _ & _ & _ & _ & [Hub _] & Hr & _).
  rewrite Hr. apply population_std_le_peak; [lia|].
  intros i Hi. apply (Hub i). lia.
Qed.

Lemma rms_error_at_most_peak_error_witness :
  analysable impulse 4 ∧
  ∃ rep d, eval_sine_quality impulse = Ok (rep, d) ∧ rmserr rep <= peakerr rep.
Proof.
  assert (Han : analysable impulse 4).
  { split; [solve_wf|]. split; [lia|reflexivity]. }
  split; [exact Han|].
  destruct (eval_sine_quality_spec impulse 4 Han) as (rep & E & _).
  exists rep, (data_after impulse 4). split; [exact E|].
  exact (rms_error_at_most_peak_error impulse 4 rep _ Han E).
Defined.



End report_invariants.

(** * The serial test driver *)

Lemma attempt_bind_done {A B} (a : A) (f : A → attempt B) : Done a ≫= f = f a.
Proof. reflexivity. Qed.

Section serial_codec.
Local Open Scope Z_scope.

Lemma land_255 v : Z.land v 255 = v mod 256.
Proof. change 255 with (Z.ones 8). by rewrite Z.land_ones. Qed.

Lemma pack_I_bytes v :
  0 ≤ v < 2 ^ 32 →
  pack_I v = Done [v mod 256; v / 256 mod 256; v / 65536 mod 256; v / 16777216].
Proof.
  intros Hv. unfold pack_I.
  replace ((0 <=? v) && (v <? 2 ^ 32)) with true.
  2:{ symmetry. apply andb_true_iff. split; [apply Z.leb_le|apply Z.ltb_lt]; lia. }
  rewrite !land_255, !Z.shiftr_div_pow2 by lia.
  change (2 ^ 8) with 256. change (2 ^ 16) with 65536.
  change (2 ^ 24) with 16777216.
  do 4 f_equal. f_equal. apply Z.mod_small. lia.
Qed.

Lemma pack_I_out_of_range v : ¬ 0 ≤ v < 2 ^ 32 → pack_I v = Crash StructError.
Proof.
  intros Hv. unfold pack_I.
  replace ((0 <=? v) && (v <? 2 ^ 32)) with false; [done|].
  symmetry. apply andb_false_iff.
  destruct (Z.leb_spec 0 v); [right; apply Z.ltb_ge; lia|by left].
Qed.

Lemma pack_B_byte v : 0 ≤ v ≤ 255 → pack_B v = Done [v].
Proof.
  intros Hv. unfold pack_B.
  replace ((0 <=? v) && (v <=? 255)) with true; [done|].
  symmetry. apply andb_true_iff. split; apply Z.leb_le; lia.
Qed.

Lemma pack_B_out_of_range v : ¬ 0 ≤ v ≤ 255 → pack_B v = Crash StructError.
Proof.
  intros Hv. unfold pack_B.
  replace ((0 <=? v) && (v <=? 255)) with false; [done|].
  symmetry. apply andb_false_iff.
  destruct (Z.leb_spec 0 v); [right; apply Z.leb_gt; lia|by left].
Qed.

Lemma command_frame_bytes coresel phase :
  -66 ≤ coresel ≤ 189 → 0 ≤ phase < 2 ^ 32 →
  command_frame coresel phase =
    Done [65; 66 + coresel; phase mod 256; phase / 256 mod 256;
          phase / 65536 mod 256; phase / 16777216].
Proof.
  intros Hc Hp. unfold command_frame, pack_BBI.
  rewrite (pack_B_byte 65), attempt_bind_done by lia.
  rewrite (pack_B_byte (66 + coresel)), attempt_bind_done by lia.
  by rewrite pack_I_bytes, attempt_bind_done.
Qed.

(** X12: the command frame of [testPhase] exists exactly when the core
    selector byte 0x42 + coresel fits a byte and the phase fits 32 bits
    (otherwise struct.error); it is then six bytes, 0x41, 0x42 + coresel and
    the phase in little-endian order, from which the phase is recovered. *)
Theorem command_frame_layout coresel phase :
  (-66 ≤ coresel ≤ 189 ∧ 0 ≤ phase < 2 ^ 32 →
   ∃ b2 b3 b4 b5,
     command_frame coresel phase = Done [65; 66 + coresel; b2; b3; b4; b5] ∧
     is_byte (66 + coresel) ∧ is_byte b2 ∧ is_byte b3 ∧ is_byte b4 ∧
     is_byte b5 ∧
     b2 + 256 * b3 + 65536 * b4 + 16777216 * b5 = phase) ∧
  (¬ (-66 ≤ coresel ≤ 189 ∧ 0 ≤ phase < 2 ^ 32) →
   command_frame coresel phase = Crash StructError).
Proof.
  split.
  - intros [Hc Hp]. eexists _, _, _, _.
    split; [by apply command_frame_bytes|].
    unfold is_byte. repeat split; lia.
  - intros Hno. unfold command_frame, pack_BBI.
    rewrite (pack_B_byte 65), attempt_bind_done by lia.
    destruct (decide (-66 ≤ coresel ≤ 189)) as [Hc|Hc].
    + rewrite (pack_B_byte (66 + coresel)), attempt_bind_done by lia.
      rewrite pack_I_out_of_range; [done|]. intros Hp. apply Hno. by split.
    + rewrite pack_B_out_of_range; [done|]. lia.
Qed.

Lemma command_frame_layout_witness :
  ∃ b2 b3 b4 b5,
    command_frame 1 123457 = Done [65; 67; b2; b3; b4; b5] ∧
    b2 + 256 * b3 + 65536 * b4 + 16777216 * b5 = 123457.
Proof.
  destruct (proj1 (command_frame_layout 1 123457))
    as (b2 & b3 & b4 & b5 & E & _ & _ & _ & _ & _ & H); [lia|].
  exists b2, b3, b4, b5. split; [exact E|exact H].
Defined.

Lemma unpack_i_range b0 b1 b2 b3 :
  is_byte b0 → is_byte b1 → is_byte b2 → is_byte b3 →
  int32_range (unpack_i b0 b1 b2 b3) ∧
  encode_i (unpack_i b0 b1 b2 b3) = [b0; b1; b2; b3].
Proof.
  unfold is_byte, int32_range, unpack_i, encode_i. intros H0 H1 H2 H3.
  set (u := b0 + 256 * b1 + 65536 * b2 + 16777216 * b3).
  assert (Hu : 0 ≤ u < 2 ^ 32) by (unfold u; lia).
  assert (Hm : (if u <? 2 ^ 31 then u else u - 2 ^ 32) mod 2 ^ 32 = u).
  { destruct (Z.ltb_spec u (2 ^ 31)).
    - apply Z.mod_small. lia.
    - replace (u - 2 ^ 32) with (u + (-1) * 2 ^ 32) by lia.
      rewrite Z.mod_add by lia. apply Z.mod_small. lia. }
  split.
  - destruct (Z.ltb_spec u (2 ^ 31)); lia.
  - cbv zeta. rewrite Hm. unfold u. repeat f_equal; lia.
Qed.

Lemma unpack_i_encode v :
  int32_range v →
  ∃ b0 b1 b2 b3,
    encode_i v = [b0; b1; b2; b3] ∧
    is_byte b0 ∧ is_byte b1 ∧ is_byte b2 ∧ is_byte b3 ∧
    unpack_i b0 b1 b2 b3 = v.
Proof.
  unfold int32_range, encode_i. intros Hv. cbv zeta.
  set (u := v mod 2 ^ 32).
  assert (Hu : 0 ≤ u < 2 ^ 32) by (apply Z.mod_pos_bound; lia).
  eexists _, _, _, _. split; [reflexivity|].
  unfold is_byte. repeat split; try lia.
  unfold unpack_i.
  replace (u mod 256 + 256 * (u / 256 mod 256) + 65536 * (u / 65536 mod 256) +
           16777216 * (u / 16777216)) with u by lia.
  unfold u. destruct (Z.ltb_spec (v mod 2 ^ 32) (2 ^ 31)) as [H|H].
  - destruct (decide (0 ≤ v)) as [Hp|Hn].
    + apply Z.mod_small. lia.
    + exfalso. replace v with (v + 2 ^ 32 + (-1) * 2 ^ 32) in H by lia.
      rewrite Z.mod_add, Z.mod_small in H; lia.
  - destruct (decide (0 ≤ v)) as [Hp|Hn].
    + exfalso. rewrite Z.mod_small in H; lia.
    + replace v with (v + 2 ^ 32 + (-1) * 2 ^ 32) at 1 by lia.
      rewrite Z.mod_add, Z.mod_small; lia.
Qed.

Lemma length_encode_reply v : length (encode_reply v) = 8%nat.
Proof. reflexivity. Qed.

Lemma unpack_encode_reply v :
  int32_range v.1 → int32_range v.2 → unpack_ii (encode_reply v) = Done v.
Proof.
  intros H1 H2. destruct v as [v1 v2]. cbn [fst snd] in *.
  destruct (unpack_i_encode v1 H1) as (a0 & a1 & a2 & a3 & Ea & _ & _ & _ & _ & Ha).
  destruct (unpack_i_encode v2 H2) as (c0 & c1 & c2 & c3 & Ec & _ & _ & _ & _ & Hc).
  unfold encode_reply. cbn [fst snd]. rewrite Ea, Ec. simpl.
  by rewrite Ha, Hc.
Qed.

(** X13: decoding a reply: eight bytes always decode, to two integers in
    [-2^31, 2^31) whose little-endian two's-complement encoding is the
    reply; every such pair of integers is the decoding of its encoding; any
    other length is a struct.error. *)
Theorem unpack_ii_bijective :
  (∀ reply, length reply = 8%nat → Forall is_byte reply →
     ∃ v, unpack_ii reply = Done v ∧ int32_range v.1 ∧ int32_range v.2 ∧
          encode_reply v = reply) ∧
  (∀ v, int32_range v.1 → int32_range v.2 →
     unpack_ii (encode_reply v) = Done v) ∧
  (∀ reply, length reply ≠ 8%nat → unpack_ii reply = Crash StructError).
Proof.
  split; [|split].
  - intros reply Hlen Hb.
    destruct reply as [|b0 [|b1 [|b2 [|b3 [|b4 [|b5 [|b6 [|b7 [|? ?]]]]]]]]];
      try discriminate Hlen.
    repeat match goal with
           | H : Forall _ (_ :: _) |- _ => apply Forall_cons in H as [? H]
           end.
    destruct (unpack_i_range b0 b1 b2 b3) as [R1 E1]; try done.
    destruct (unpack_i_range b4 b5 b6 b7) as [R2 E2]; try done.
    eexists. split; [reflexivity|]. cbn [fst snd].
    split; [done|]. split; [done|].
    unfold encode_reply. cbn [fst snd]. by rewrite E1, E2.
  - intros v. apply unpack_encode_reply.
  - intros reply Hlen.
    destruct reply as [|b0 [|b1 [|b2 [|b3 [|b4 [|b5 [|b6 [|b7 [|? ?]]]]]]]]];
      done.
Qed.

Lemma unpack_ii_bijective_witness :
  unpack_ii [255; 255; 255; 255; 1; 0; 0; 0] = Done (-1, 1) ∧
  unpack_ii (encode_reply (-131071, 131071)) = Done (-131071, 131071).
Proof.
  destruct unpack_ii_bijective as (_ & H & _).
  split; [reflexivity|].
  apply (H (-131071, 131071)); unfold int32_range; simpl; lia.
Defined.

End serial_codec.

Section phase_schedule.
Local Open Scope Z_scope.

Lemma py_shiftl_nonneg a k : 0 ≤ k → py_shiftl a k = Done (a * 2 ^ k).
Proof.
  intros Hk. unfold py_shiftl.
  destruct (Z.ltb_spec k 0); [lia|]. by rewrite Z.shiftl_mul_pow2.
Qed.




Lemma next_phase_spec phasebits phase :
  0 ≤ phasebits →
  next_phase phasebits phase = Done ((phase + 123457) mod 2 ^ phasebits).
Proof.
  intros H. unfold next_phase. rewrite py_shiftl_nonneg by done.
  rewrite attempt_bind_done, Z.mul_1_l.
  rewrite Z.sub_1_r, <- Z.ones_equiv, Z.land_ones by done. done.
Qed.

(** the i-th pseudorandom phase is 123457 (i + 1) modulo 2^phasebits *)
Lemma prn_phases_spec phasebits count phase :
  0 ≤ phasebits →
  prn_phases phasebits count phase =
    Done ((λ i, (phase + 123457 * (i + 1)) mod 2 ^ phasebits) <$>
          py_range count).
Proof.
  intros H. revert phase. induction count as [|count IH]; intros phase.
  - done.
  - cbn [prn_phases]. rewrite next_phase_spec, attempt_bind_done by done.
    rewrite IH, attempt_bind_done. cbn [mret attempt_ret]. f_equal.
    unfold py_range. rewrite <- !list_fmap_compose.
    change (seq 0 (S count)) with (0%nat :: seq 1 count).
    rewrite fmap_cons. f_equal.
    rewrite <- (fmap_S_seq 0), <- list_fmap_compose.
    apply list_fmap_ext. intros k i _. unfold compose.
    rewrite Zplus_mod_idemp_l. f_equal. lia.
Qed.

Lemma odd_multiple_of_pow2 k d :
  0 ≤ k → (2 ^ k | 123457 * d) → (2 ^ k | d).
Proof.
  intros Hk Hd. apply (Z.gauss _ 123457); [done|].
  apply Z.coprime_pow_l; [done|]. reflexivity.
Qed.

Lemma prn_phase_injective phasebits i j :
  13 ≤ phasebits → 0 ≤ i < 5000 → 0 ≤ j < 5000 →
  (123457 * (i + 1)) mod 2 ^ phasebits = (123457 * (j + 1)) mod 2 ^ phasebits →
  i = j.
Proof.
  intros Hp Hi Hj E.
  assert (Hpow : 2 ^ 13 ≤ 2 ^ phasebits) by (apply Z.pow_le_mono_r; lia).
  change (2 ^ 13) with 8192 in Hpow.
  assert (Hd : (2 ^ phasebits | 123457 * (i - j))).
  { apply Z.mod_divide; [lia|].
    replace (123457 * (i - j)) with (123457 * (i + 1) - 123457 * (j + 1)) by lia.
    rewrite Zminus_mod, E, Z.sub_diag. apply Z.mod_0_l. lia. }
  apply odd_multiple_of_pow2 in Hd as [q Hq]; [|lia].
  assert (q = 0) by nia. lia.
Qed.





(** X15: for phasebits ≥ 13 the 5000 pseudorandom phases of the third loop
    are pairwise distinct. *)
Theorem pseudorandom_phases_distinct phasebits :
  13 ≤ phasebits →
  ∃ ps, prn_phases phasebits 5000 0 = Done ps ∧
        length ps = 5000%nat ∧ NoDup ps.
Proof.
  intros H. eexists. split; [apply prn_phases_spec; lia|].
  split; [unfold py_range; by rewrite !length_fmap, length_seq|].
  apply NoDup_alt. intros i j x Hi Hj.
  apply list_lookup_fmap_Some in Hi as (a & -> & Ha).
  apply list_lookup_fmap_Some in Hj as (b & Hb' & Hb).
  unfold py_range in Ha, Hb.
  apply list_lookup_fmap_Some in Ha as (i' & -> & Hi').
  apply list_lookup_fmap_Some in Hb as (j' & -> & Hj').
  apply lookup_seq in Hi' as [-> Hi']. apply lookup_seq in Hj' as [-> Hj'].
  simpl in Hb'. rewrite !Z.add_0_l in Hb'.
  apply prn_phase_injective in Hb'; lia.
Qed.

Lemma pseudorandom_phases_distinct_witness :
  ∃ ps, prn_phases 20 5000 0 = Done ps ∧ length ps = 5000%nat ∧ NoDup ps.
Proof. apply (pseudorandom_phases_distinct 20). lia. Defined.

End phase_schedule.

Section test_core.
Local Open Scope Z_scope.













End test_core.
